(** * Subtitle timing of the lecture generator

    A shallow embedding of the timing code of the narrated-lecture
    generator: the per-slide sentence allocator and the cumulative slide
    sequencing of [lecture_generator.py] / [lecture_gen.py], and the SRT
    re-binner of [sync_subtitles.py].

    Python floats are read as exact rationals ([Q], compared with [==]),
    Python [str] as a list of Unicode code points, and a Python [dict] as
    an insertion-ordered association list with integer keys. Apart from
    the allocator's equal slices, which the specification states in exact
    arithmetic, the statements compare times the code computes by the same
    operations, or bound them in a way that rounding keeps. *)

From Stdlib Require Import QArith Qfield Lqa ZArith NArith.
From Stdlib Require DecimalString.
From stdpp Require Import base list sorting strings.

Local Open Scope Q_scope.

(** ** Python strings *)

Module PyStr.

Definition str := list N.

(** A string literal, from its ASCII spelling. *)
Definition lit (s : string) : str :=
  Ascii.N_of_ascii <$> String.list_ascii_of_string s.

(** [str.isspace] on one code point (also the class [\s] of [re]). *)
Definition isspace (c : N) : bool :=
  ((9 <=? c) && (c <=? 13) || (28 <=? c) && (c <=? 32)
   || (c =? 133) || (c =? 160) || (c =? 5760)
   || (8192 <=? c) && (c <=? 8202)
   || (c =? 8232) || (c =? 8233) || (c =? 8239) || (c =? 8287)
   || (c =? 12288))%N.

Fixpoint lstrip (s : str) : str :=
  match s with
  | [] => []
  | c :: rest => if isspace c then lstrip rest else s
  end.

Definition rstrip (s : str) : str := reverse (lstrip (reverse s)).

(** [s.strip()] *)
Definition strip (s : str) : str := rstrip (lstrip s).

(** Truth value of a string: [bool(s)]. *)
Definition truthy (s : str) : bool :=
  match s with [] => false | _ :: _ => true end.

(** [c in '.!?'] for a one-character string [c]. *)
Definition is_terminal (c : N) : bool :=
  ((c =? 46) || (c =? 33) || (c =? 63))%N.

(** [s[-1]] *)
Definition last_char (s : str) : option N := last s.

Inductive split_mode := Scan (after_terminal : bool) | Skip.

(** [re.split(r'(?<=[.!?])\s+', s)]: a separator is a maximal run of
    white space whose first character follows one of [.!?]. *)
Fixpoint re_split_go (m : split_mode) (cur : str) (s : str) : list str :=
  match s with
  | [] => [reverse cur]
  | c :: rest =>
      match m with
      | Skip =>
          if isspace c then re_split_go Skip cur rest
          else re_split_go (Scan (is_terminal c)) (c :: cur) rest
      | Scan p =>
          if p && isspace c then reverse cur :: re_split_go Skip [] rest
          else re_split_go (Scan (is_terminal c)) (c :: cur) rest
      end
  end.

Definition re_split_sentences (s : str) : list str :=
  re_split_go (Scan false) [] s.

End PyStr.

Import PyStr.

(** ** Data classes *)

Module SlideContent.
Record t := mk {
  slide_number : Z;
  image_path : str;
  narration_text : str;
  duration : Q;
  start_time : Q
}.

(** [SlideContent(n, image, text)]: both times default to [0.0]. *)
Definition new (n : Z) (image text : str) : t := mk n image text 0 0.
End SlideContent.

Module SubtitleSegment.
Record t := mk {
  text : str;
  start_time : Q;
  end_time : Q
}.
End SubtitleSegment.

(** ** Text preprocessing *)

Module TextPreprocessor.

Section with_tokenizer.
(** [nltk.sent_tokenize]; [None] when it raises. *)
Variable sent_tokenize : str → option (list str).

Definition split_into_sentences (text : str) : list str :=
  let sentences :=
    match sent_tokenize text with
    | Some l => l
    | None => re_split_sentences text
    end in
  filter (λ s, truthy s = true) (strip <$> sentences).
End with_tokenizer.

Section with_rewriting.
(** The rewriting passes of [clean_for_tts] that precede its final
    clean-up (white-space normalisation, joining of broken lines,
    spacing, dashes, abbreviations, ordinals, acronyms), which differ
    between the two generator scripts. *)
Variable rewrite_passes : str → str.

Definition clean_for_tts (text : str) : str :=
  if negb (truthy text) then []
  else
    let text := rewrite_passes text in
    let text := strip text in
    match last_char text with
    | Some c => if negb (is_terminal c) then text ++ lit "." else text
    | None => text
    end.
End with_rewriting.

End TextPreprocessor.

Import TextPreprocessor.

(** [n] as a Python number in an arithmetic expression with floats. *)
Definition of_nat (n : nat) : Q := inject_Z (Z.of_nat n).

(** ** The allocator: [LectureTTSGenerator.generate_subtitles] *)

(** [lecture_generator.py] *)
Module LectureGenerator.
Import SlideContent.

Section with_tokenizer.
Variable sent_tokenize : str → option (list str).

(** The inner loop over [enumerate(sentences)]. *)
Definition allocate (slide : SlideContent.t) (sentences : list str)
  : list SubtitleSegment.t :=
  match sentences with
  | [] => []
  | _ :: _ =>
      let dur := duration slide / of_nat (length sentences) in
      imap (λ i sent,
              SubtitleSegment.mk sent
                (start_time slide + of_nat i * dur)
                (start_time slide + inject_Z (Z.of_nat i + 1) * dur))
           sentences
  end.

(** One iteration of the loop over [self.slides]. *)
Definition slide_subtitles (slide : SlideContent.t)
  : list SubtitleSegment.t :=
  if negb (truthy (strip (narration_text slide)))
     || Qeq_bool (duration slide) 0
  then []
  else allocate slide
         (split_into_sentences sent_tokenize (narration_text slide)).

Definition generate_subtitles (slides : list SlideContent.t)
  : list SubtitleSegment.t :=
  fold_left (λ subtitles slide, subtitles ++ slide_subtitles slide)
            slides [].
End with_tokenizer.
End LectureGenerator.

(** [lecture_gen.py] *)
Module LectureGen.
Import SlideContent.

Section with_tokenizer.
Variable sent_tokenize : str → option (list str).

Definition allocate (slide : SlideContent.t) (sentences : list str)
  : list SubtitleSegment.t :=
  match sentences with
  | [] => []
  | _ :: _ =>
      let sentence_duration :=
        duration slide / of_nat (length sentences) in
      imap (λ i sentence,
              let start_time :=
                start_time slide + of_nat i * sentence_duration in
              let end_time := start_time + sentence_duration in
              SubtitleSegment.mk (strip sentence) start_time end_time)
           sentences
  end.

Definition slide_subtitles (slide : SlideContent.t)
  : list SubtitleSegment.t :=
  if negb (truthy (strip (narration_text slide)))
     || Qeq_bool (duration slide) 0
  then []
  else allocate slide
         (split_into_sentences sent_tokenize (narration_text slide)).

Definition generate_subtitles (slides : list SlideContent.t)
  : list SubtitleSegment.t :=
  fold_left (λ subtitles slide, subtitles ++ slide_subtitles slide)
            slides [].
End with_tokenizer.
End LectureGen.

(** ** Loading and sequencing the slides *)

Module SlideData.
(** One entry of the [slides] list of the content file. *)
Record t := mk {
  narration_text : option str;
  slide_text : option str;
  image_path : option str
}.
End SlideData.

Section session.
Variable rewrite_passes : str → str.

(** [tts_to_wav] (or [tts_to_file]) followed by [librosa.load]: the
    measured [len(audio) / sr] of the slide's narration, [None] when the
    synthesis or the decoding raises. *)
Variable synthesize : SlideContent.t → option Q.

(** [load_slides_content] of [lecture_generator.py], on the decoded
    [data.get("slides", [])]. *)
Definition load_slides_content (slides : list SlideData.t)
  : list SlideContent.t :=
  imap (λ i s,
          let raw :=
            default (default [] (SlideData.slide_text s))
                    (SlideData.narration_text s) in
          let clean := clean_for_tts rewrite_passes raw in
          SlideContent.new (Z.of_nat i + 1)
            (default [] (SlideData.image_path s)) clean)
       slides.

(** The loop of [generate_audio_segments], from a given value of
    [cumulative]: the slides as mutated and the slide numbers of the
    audio files written, or [None] when a synthesis raised. *)
Fixpoint audio_loop (slides : list SlideContent.t) (cumulative : Q)
  : option (list SlideContent.t * list Z) :=
  match slides with
  | [] => Some ([], [])
  | slide :: rest =>
      if negb (truthy (strip (SlideContent.narration_text slide))) then
        '(rest', audio_files) ← audio_loop rest cumulative;
        Some (slide :: rest', audio_files)
      else
        d ← synthesize slide;
        let slide' :=
          SlideContent.mk (SlideContent.slide_number slide)
            (SlideContent.image_path slide)
            (SlideContent.narration_text slide) d cumulative in
        '(rest', audio_files) ← audio_loop rest (cumulative + d);
        Some (slide' :: rest',
              SlideContent.slide_number slide :: audio_files)
  end.

Definition generate_audio_segments (slides : list SlideContent.t)
  : option (list SlideContent.t * list Z) :=
  audio_loop slides 0.
End session.

(** Sum of the durations of a list of slides. *)
Definition total_duration (slides : list SlideContent.t) : Q :=
  foldr Qplus 0 (SlideContent.duration <$> slides).

(** ** Insertion-ordered dictionaries with integer keys *)

Module Dict.
Definition t (V : Type) := list (Z * V).

Section ops.
Context {V : Type}.

Definition keys (d : t V) : list Z := fst <$> d.

(** [d.get(k)] *)
Fixpoint get (d : t V) (k : Z) : option V :=
  match d with
  | [] => None
  | (k', v) :: rest => if Z.eqb k' k then Some v else get rest k
  end.

(** [k in d] *)
Definition contains (d : t V) (k : Z) : bool :=
  match get d k with Some _ => true | None => false end.

(** [d[k] = v]: an existing key keeps its place, a new one goes last. *)
Fixpoint set (d : t V) (k : Z) (v : V) : t V :=
  match d with
  | [] => [(k, v)]
  | (k', v') :: rest =>
      if Z.eqb k' k then (k', v) :: rest else (k', v') :: set rest k v
  end.

(** Python dictionaries have no repeated key. *)
Definition wf (d : t V) : Prop := NoDup (keys d).
End ops.
End Dict.

(** ** The re-binner: [parse_srt_file] of [sync_subtitles.py] *)

Module SyncSubtitles.

(** A subtitle dictionary [{'start': _, 'end': _, 'text': _}]. *)
Module Sub.
Record t := mk { start : Q; end_ : Q; text : str }.
End Sub.

(** A boundary dictionary [{'start': _, 'end': _}]. *)
Module Bounds.
Record t := mk { start : Q; end_ : Q }.
End Bounds.

Definition Qlt_bool (x y : Q) : bool := negb (Qle_bool y x).

(** [sorted(keys)] *)
Definition sorted (keys : list Z) : list Z := merge_sort Z.le keys.

(** [audio_durations[slide_num]], for a key of the dictionary. *)
Definition duration_of (audio_durations : Dict.t Q) (slide_num : Z) : Q :=
  default 0 (Dict.get audio_durations slide_num).

(** The first loop: the cumulative time boundaries of the slides. *)
Definition boundaries_loop (audio_durations : Dict.t Q)
    (keys : list Z) (st : Dict.t Bounds.t * Q) : Dict.t Bounds.t * Q :=
  fold_left
    (λ '(slide_boundaries, cumulative_time) slide_num,
       (Dict.set slide_boundaries slide_num
          (Bounds.mk cumulative_time
             (cumulative_time + duration_of audio_durations slide_num)),
        cumulative_time + duration_of audio_durations slide_num))
    keys st.

Definition slide_boundaries (audio_durations : Dict.t Q)
  : Dict.t Bounds.t :=
  (boundaries_loop audio_durations
     (sorted (Dict.keys audio_durations)) ([], 0)).1.

(** [bounds['start'] <= sub['start'] < bounds['end']] *)
Definition within (bounds : Bounds.t) (sub : Sub.t) : bool :=
  Qle_bool (Bounds.start bounds) (Sub.start sub)
  && Qlt_bool (Sub.start sub) (Bounds.end_ bounds).

(** The inner loop over [slide_boundaries.items()], up to its [break]. *)
Fixpoint find_slide (boundaries : Dict.t Bounds.t) (sub : Sub.t)
  : option (Z * Bounds.t) :=
  match boundaries with
  | [] => None
  | (slide_num, bounds) :: rest =>
      if within bounds sub then Some (slide_num, bounds)
      else find_slide rest sub
  end.

(** The subtitle made relative to the start of its slide. *)
Definition relative (bounds : Bounds.t) (sub : Sub.t) : Sub.t :=
  Sub.mk (Sub.start sub - Bounds.start bounds)
         (Sub.end_ sub - Bounds.start bounds)
         (Sub.text sub).

(** One iteration of the loop over [all_subtitles]. *)
Definition assign (boundaries : Dict.t Bounds.t)
    (subtitles_by_slide : Dict.t (list Sub.t)) (sub : Sub.t)
  : Dict.t (list Sub.t) :=
  match find_slide boundaries sub with
  | None => subtitles_by_slide
  | Some (slide_num, bounds) =>
      let subtitles_by_slide :=
        if negb (Dict.contains subtitles_by_slide slide_num)
        then Dict.set subtitles_by_slide slide_num []
        else subtitles_by_slide in
      Dict.set subtitles_by_slide slide_num
        (default [] (Dict.get subtitles_by_slide slide_num)
           ++ [relative bounds sub])
  end.

(** [parse_srt_file] after the SRT blocks have been read into
    [all_subtitles]. *)
Definition rebin (audio_durations : Dict.t Q) (all_subtitles : list Sub.t)
  : Dict.t (list Sub.t) :=
  fold_left (assign (slide_boundaries audio_durations)) all_subtitles [].

Section with_parser.
  (** Reading the blocks of the SRT text into subtitle dictionaries
      (the regular-expression pass over the file's content). *)
Variable read_blocks : str → list Sub.t.

Definition parse_srt_file (content : str) (audio_durations : Dict.t Q)
  : Dict.t (list Sub.t) :=
  rebin audio_durations (read_blocks content).
End with_parser.

End SyncSubtitles.

Import SyncSubtitles.

(** * The code around the timing core *)

(** ** The synthesis step and the whole run of [lecture_generator.py] *)

Section synthesis.
(** [gTTS], [ffmpeg] and [librosa.load] on the stripped text of a slide,
    for the audio file of the given slide number: the measured
    [len(audio) / sr], [None] when one of them raises. *)
Variable speak : str → Z → option Q.

(** [tts_to_wav] followed by the duration measurement; the [ValueError]
    on an empty text is the first [None]. *)
Definition tts_to_wav (slide : SlideContent.t) : option Q :=
  let text := strip (SlideContent.narration_text slide) in
  if negb (truthy text) then None
  else speak text (SlideContent.slide_number slide).

(** The same step without the guard of [tts_to_wav]. *)
Definition speak_slide (slide : SlideContent.t) : option Q :=
  speak (strip (SlideContent.narration_text slide))
        (SlideContent.slide_number slide).
End synthesis.

Inductive lecture_error :=
  | NoSlides          (* ValueError("No slides found!") *)
  | SynthesisFailed   (* an exception of the synthesis step *)
  | NoAudio.          (* ValueError("No audio generated!") *)

Module Lecture.
(** The state a successful [generate_lecture] leaves behind. *)
Record t := mk {
  slides : list SlideContent.t;
  audio_files : list Z;
  subtitles : list SubtitleSegment.t
}.
End Lecture.

Section lecture.
Variable rewrite_passes : str → str.
Variable synthesize : SlideContent.t → option Q.
Variable sent_tokenize : str → option (list str).

(** [generate_lecture], up to the writing of the SRT file. *)
Definition generate_lecture (data : list SlideData.t)
  : lecture_error + Lecture.t :=
  match load_slides_content rewrite_passes data with
  | [] => inl NoSlides
  | slides =>
      match generate_audio_segments synthesize slides with
      | None => inl SynthesisFailed
      | Some (_, []) => inl NoAudio
      | Some (slides', audio_files) =>
          inr (Lecture.mk slides' audio_files
                 (LectureGenerator.generate_subtitles sent_tokenize slides'))
      end
  end.
End lecture.

(** ** Reading the durations and the SRT blocks in [sync_subtitles.py] *)

(** [get_audio_durations], on the audio files found, each with the slide
    number read from its name and its measured duration. *)
Definition get_audio_durations (files : list (Z * Q)) : Dict.t Q :=
  fold_left (λ durations '(slide_num, duration),
               Dict.set durations slide_num duration)
            files [].

Module Timing.
(** The eight integer groups of the timing line of an SRT block. *)
Record t := mk {
  start_h : Z; start_m : Z; start_s : Z; start_ms : Z;
  end_h : Z; end_m : Z; end_s : Z; end_ms : Z
}.
End Timing.

(** [h * 3600 + m * 60 + s + ms / 1000] *)
Definition srt_seconds (h m s ms : Z) : Q :=
  inject_Z (h * 3600 + m * 60 + s) + inject_Z ms / 1000.

Fixpoint split_on (sep : N) (cur : str) (s : str) : list str :=
  match s with
  | [] => [reverse cur]
  | c :: rest =>
      if N.eqb c sep then reverse cur :: split_on sep [] rest
      else split_on sep (c :: cur) rest
  end.

(** [s.split('\n')] *)
Definition split_lines (s : str) : list str := split_on 10 [] s.

(** [' '.join(lines)] *)
Fixpoint join_space (lines : list str) : str :=
  match lines with
  | [] => []
  | [line] => line
  | line :: rest => line ++ 32%N :: join_space rest
  end.

Section reading.
(** [re.split(r'\n\s*\n', _)] *)
Variable split_blocks : str → list str.
(** [re.search] of the timing pattern in a line, with its groups read as
    integers; [None] when the line does not match. *)
Variable timing_search : str → option Timing.t.

(** One iteration of the loop over [blocks]: the subtitle read from the
    block, [None] when the block is skipped. *)
Definition read_block (block : str) : option Sub.t :=
  if negb (truthy (strip block)) then None
  else
    let lines := split_lines (strip block) in
    if (length lines <? 3)%nat then None
    else
      match timing_search (default [] (lines !! 1%nat)) with
      | None => None
      | Some m =>
          let start_time :=
            srt_seconds (Timing.start_h m) (Timing.start_m m)
                        (Timing.start_s m) (Timing.start_ms m) in
          let end_time :=
            srt_seconds (Timing.end_h m) (Timing.end_m m)
                        (Timing.end_s m) (Timing.end_ms m) in
          Some (Sub.mk start_time end_time (join_space (drop 2 lines)))
      end.

Definition read_blocks (content : str) : list Sub.t :=
  omap read_block (split_blocks (strip content)).
End reading.

(** ** The subtitle shown by the player of [generate_player.py] *)


(** ** The narration written by [slide_extractor_with_images.py] *)

(** [str(n)] for an integer [n]. *)
Definition str_of_int (n : Z) : str :=
  lit (DecimalString.NilZero.string_of_int (Z.to_int n)).

(** [s.endswith(('.', '!', '?'))] *)
Definition ends_sentence (s : str) : bool :=
  match last s with Some c => is_terminal c | None => false end.

Definition _create_narration (slide_text : str) (slide_number : Z) : str :=
  if negb (truthy (strip slide_text)) then
    lit "This is slide " ++ str_of_int slide_number ++ lit "."
  else
    let narration := strip slide_text in
    let narration :=
      if negb (ends_sentence narration) then narration ++ lit "."
      else narration in
    if Z.eqb slide_number 1 then
      lit "Welcome to today's presentation. " ++ narration
    else
      lit "Moving on to slide " ++ str_of_int slide_number ++ lit ". "
      ++ narration.

(** ** The last passes of [clean_for_tts] in [lecture_generator.py] *)

(** [re.sub] replacing every maximal run of characters of the class [p]
    by the one character [r]. *)
Fixpoint squeeze (p : N → bool) (r : N) (in_run : bool) (s : str) : str :=
  match s with
  | [] => []
  | c :: rest =>
      if p c then
        if in_run then squeeze p r true rest
        else r :: squeeze p r true rest
      else c :: squeeze p r false rest
  end.

(** [re.sub(r'\s+', ' ', text)] *)
Definition sub_spaces (text : str) : str := squeeze isspace 32 false text.

(** [re.sub(r'\.{2,}', '.', text)]: a period alone is a run kept as it
    is, a longer run becomes one period. *)
Definition sub_periods (text : str) : str :=
  squeeze (N.eqb 46) 46 false text.

(** [re.sub(r',{2,}', ',', text)] *)
Definition sub_commas (text : str) : str :=
  squeeze (N.eqb 44) 44 false text.

Section generator_cleaning.
(** The passes of [clean_for_tts] before "Clean up multiple spaces and
    periods". *)
Variable passes_before_cleanup : str → str.

(** [clean_for_tts] of [lecture_generator.py], its last passes spelled
    out. *)
Definition clean_for_tts_generator (text : str) : str :=
  clean_for_tts
    (λ text, sub_commas (sub_periods (sub_spaces (passes_before_cleanup text))))
    text.
End generator_cleaning.

(** * Vocabulary of the statements *)

(** What the claim says of a list of segments cut out of a slide that
    starts at [start] and lasts [total], for [n] sentences. *)
Definition equal_slices (start total : Q) (n : nat)
    (segs : list SubtitleSegment.t) : Prop :=
  length segs = n
  ∧ (∀ i seg, segs !! i = Some seg →
       SubtitleSegment.start_time seg - start == of_nat i * (total / of_nat n)
       ∧ SubtitleSegment.end_time seg - start
         == of_nat (S i) * (total / of_nat n)
       ∧ SubtitleSegment.end_time seg - SubtitleSegment.start_time seg
         == total / of_nat n)
  ∧ (∀ i seg seg', segs !! i = Some seg → segs !! S i = Some seg' →
       SubtitleSegment.end_time seg == SubtitleSegment.start_time seg')
  ∧ (∀ seg, last segs = Some seg →
       SubtitleSegment.end_time seg - start == total).

Definition fresh (slide : SlideContent.t) : Prop :=
  SlideContent.duration slide == 0.

Definition narrated (slide : SlideContent.t) : bool :=
  truthy (strip (SlideContent.narration_text slide)).

(** A deck whose second slide has no text at all. *)
Definition deck_with_gap : list SlideData.t :=
  [ SlideData.mk (Some (lit "Welcome.")) None None;
    SlideData.mk None None None;
    SlideData.mk (Some (lit "Goodbye.")) None None ].

(** The same deck after [generate_audio_segments], when every synthesis
    yields two seconds of audio. *)
Definition deck_with_gap_sequenced : list SlideContent.t :=
  [ SlideContent.mk 1 [] (lit "Welcome.") 2 0;
    SlideContent.new 2 [] [];
    SlideContent.mk 3 [] (lit "Goodbye.") 2 2 ].

(** Sum of a list of rationals. *)
Definition sumQ (l : list Q) : Q := foldr Qplus 0 l.

(** No slide has a negative duration. *)
Definition nonneg (audio_durations : Dict.t Q) : Prop :=
  Forall (λ kv, 0 <= kv.2) audio_durations.

(** Sum of the durations of the slides numbered below [n]. *)
Definition sum_before (audio_durations : Dict.t Q) (n : Z) : Q :=
  sumQ ((filter (λ kv, (kv.1 < n)%Z) audio_durations).*2).

(** The boundaries of the slides [keys], taken in that order from the
    time [cumulative]. *)
Fixpoint cumulative_bounds (audio_durations : Dict.t Q) (keys : list Z)
    (cumulative : Q) : Dict.t Bounds.t :=
  match keys with
  | [] => []
  | k :: rest =>
      (k, Bounds.mk cumulative (cumulative + duration_of audio_durations k))
      :: cumulative_bounds audio_durations rest
           (cumulative + duration_of audio_durations k)
  end.

(** The slide a subtitle is assigned to, if any. *)
Definition slide_of (boundaries : Dict.t Bounds.t) (sub : Sub.t) : option Z :=
  fst <$> find_slide boundaries sub.

(** The segment a subtitle contributes to slide [n], if it is assigned
    to it. *)
Definition segment_for (boundaries : Dict.t Bounds.t) (n : Z) (sub : Sub.t)
  : option Sub.t :=
  match find_slide boundaries sub with
  | Some (m, bounds) => if Z.eqb m n then Some (relative bounds sub) else None
  | None => None
  end.

(** The entry of a slide after more segments were appended to it. *)
Definition extended (entry : option (list Sub.t)) (segs : list Sub.t)
  : option (list Sub.t) :=
  match entry, segs with
  | None, [] => None
  | _, _ => Some (default [] entry ++ segs)
  end.

(** The segments listed for slide [n], none when the slide has no entry. *)
Definition segments_of (subtitles_by_slide : Dict.t (list Sub.t)) (n : Z)
  : list Sub.t :=
  default [] (Dict.get subtitles_by_slide n).

(** No white space at either end. *)
Definition trimmed (s : str) : Prop :=
  (∀ c, head s = Some c → isspace c = false)
  ∧ (∀ c, last s = Some c → isspace c = false).

(** The characters of a string that are not white space. *)
Definition visible (s : list N) : list N :=
  filter (λ c, isspace c = false) s.

(** Two segments with the same text and the same start time, computed
    by the same operations. *)
Definition same_text_and_start (a b : SubtitleSegment.t) : Prop :=
  SubtitleSegment.text a = SubtitleSegment.text b
  ∧ SubtitleSegment.start_time a = SubtitleSegment.start_time b.

(** The segments follow one another in time from [from] on: each starts
    no earlier than [from] or than the end of the one before, and ends no
    earlier than it starts. *)
Fixpoint timeline_from (from : Q) (segs : list SubtitleSegment.t) : Prop :=
  match segs with
  | [] => True
  | seg :: rest =>
      from <= SubtitleSegment.start_time seg
      ∧ SubtitleSegment.start_time seg <= SubtitleSegment.end_time seg
      ∧ timeline_from (SubtitleSegment.end_time seg) rest
  end.

(** The segments start in time order from [from] on, and each ends no
    earlier than it starts. *)
Fixpoint starts_from (from : Q) (segs : list SubtitleSegment.t) : Prop :=
  match segs with
  | [] => True
  | seg :: rest =>
      from <= SubtitleSegment.start_time seg
      ∧ SubtitleSegment.start_time seg <= SubtitleSegment.end_time seg
      ∧ starts_from (SubtitleSegment.start_time seg) rest
  end.

(** The slide number and duration of each audio file a run has written,
    in slide order. *)
Definition measured (slides : list SlideContent.t) : list (Z * Q) :=
  omap (λ slide, if narrated slide
                 then Some (SlideContent.slide_number slide,
                            SlideContent.duration slide)
                 else None) slides.

(** The boundaries the sequenced slides themselves describe: from the
    start time of each narrated slide to its start time plus its
    duration. *)
Definition slide_bounds (slides : list SlideContent.t) : Dict.t Bounds.t :=
  omap (λ slide, if narrated slide
                 then Some (SlideContent.slide_number slide,
                            Bounds.mk (SlideContent.start_time slide)
                              (SlideContent.start_time slide
                               + SlideContent.duration slide))
                 else None) slides.

(** The fields of a timing line are in their usual ranges. *)
Definition normal_fields (h m s ms : Z) : Prop :=
  (0 <= h ∧ 0 <= m < 60 ∧ 0 <= s < 60 ∧ 0 <= ms < 1000)%Z.

(** An SRT block of four lines, with a line break at its end. *)
Definition srt_block : str :=
  lit "1" ++ [10%N] ++ lit "00:00:01,500 --> 00:00:02,000" ++ [10%N]
  ++ lit "Hello" ++ [10%N] ++ lit "world" ++ [10%N].

(** No two neighbouring characters of [s] are both in the class [q]
    ([after_q]: the character before [s] is in [q]). *)
Fixpoint separated (q : N → bool) (after_q : bool) (s : list N) : Prop :=
  match s with
  | [] => True
  | c :: rest =>
      if q c then after_q = false ∧ separated q true rest
      else separated q false rest
  end.

(** * Properties *)

(** ** Rational arithmetic helpers *)

Lemma of_nat_pos (n : nat) : (0 < n)%nat → 0 < of_nat n.
Proof.
  intros Hn. unfold of_nat, Qlt. simpl. lia.
Qed.

Lemma of_nat_nonzero (n : nat) : (0 < n)%nat → ¬ of_nat n == 0.
Proof.
  intros Hn Heq. pose proof (of_nat_pos n Hn) as Hpos.
  rewrite Heq in Hpos. by apply Qlt_irrefl in Hpos.
Qed.

Lemma of_nat_succ (i : nat) : inject_Z (Z.of_nat i + 1) == of_nat i + 1.
Proof. unfold of_nat. rewrite inject_Z_plus. reflexivity. Qed.

Lemma of_nat_S (i : nat) : of_nat (S i) == of_nat i + 1.
Proof.
  unfold of_nat. rewrite Nat2Z.inj_succ, <- Z.add_1_r, inject_Z_plus.
  reflexivity.
Qed.

Lemma Qeq_bool_false_pos (x : Q) : 0 < x → Qeq_bool x 0 = false.
Proof.
  intros Hx. destruct (Qeq_bool x 0) eqn:E; [|done].
  apply Qeq_bool_iff in E. rewrite E in Hx. by apply Qlt_irrefl in Hx.
Qed.

(** ** The allocator *)

Lemma generator_allocate_lookup slide sentences i seg :
  LectureGenerator.allocate slide sentences !! i = Some seg →
  ∃ sent, sentences !! i = Some sent
    ∧ seg = SubtitleSegment.mk sent
        (SlideContent.start_time slide
         + of_nat i * (SlideContent.duration slide / of_nat (length sentences)))
        (SlideContent.start_time slide
         + inject_Z (Z.of_nat i + 1)
           * (SlideContent.duration slide / of_nat (length sentences))).
Proof.
  unfold LectureGenerator.allocate. destruct sentences as [|s0 rest].
  - by rewrite lookup_nil.
  - rewrite list_lookup_imap. intros H.
    destruct ((s0 :: rest) !! i) as [sent|] eqn:E; simplify_eq/=.
    by exists sent.
Qed.

Lemma gen_allocate_lookup slide sentences i seg :
  LectureGen.allocate slide sentences !! i = Some seg →
  ∃ sent, sentences !! i = Some sent
    ∧ seg = SubtitleSegment.mk (strip sent)
        (SlideContent.start_time slide
         + of_nat i * (SlideContent.duration slide / of_nat (length sentences)))
        (SlideContent.start_time slide
         + of_nat i * (SlideContent.duration slide / of_nat (length sentences))
         + SlideContent.duration slide / of_nat (length sentences)).
Proof.
  unfold LectureGen.allocate. destruct sentences as [|s0 rest].
  - by rewrite lookup_nil.
  - rewrite list_lookup_imap. intros H.
    destruct ((s0 :: rest) !! i) as [sent|] eqn:E; simplify_eq/=.
    by exists sent.
Qed.

Lemma generator_allocate_length slide sentences :
  length (LectureGenerator.allocate slide sentences) = length sentences.
Proof.
  unfold LectureGenerator.allocate. destruct sentences; [done|].
  by rewrite length_imap.
Qed.

Lemma gen_allocate_length slide sentences :
  length (LectureGen.allocate slide sentences) = length sentences.
Proof.
  unfold LectureGen.allocate. destruct sentences; [done|].
  by rewrite length_imap.
Qed.

Lemma last_index {A} (l : list A) (x : A) :
  last l = Some x → l !! pred (length l) = Some x ∧ (0 < length l)%nat.
Proof.
  rewrite last_lookup. intros H. split; [done|].
  destruct l; [done | simpl; lia].
Qed.

Lemma generator_allocate_equal_slices slide sentences :
  sentences ≠ [] →
  equal_slices (SlideContent.start_time slide) (SlideContent.duration slide)
    (length sentences) (LectureGenerator.allocate slide sentences).
Proof.
  intros Hne.
  assert (Hn : (0 < length sentences)%nat)
    by (destruct sentences; [done | simpl; lia]).
  pose proof (of_nat_nonzero _ Hn) as Hnz.
  repeat split.
  - apply generator_allocate_length.
  - apply generator_allocate_lookup in H as (sent & _ & ->). simpl. ring.
  - apply generator_allocate_lookup in H as (sent & _ & ->). simpl.
    rewrite of_nat_succ, of_nat_S. ring.
  - apply generator_allocate_lookup in H as (sent & _ & ->). simpl.
    rewrite of_nat_succ. ring.
  - intros i seg seg' H H'.
    apply generator_allocate_lookup in H as (sent & _ & ->).
    apply generator_allocate_lookup in H' as (sent' & _ & ->). simpl.
    rewrite of_nat_succ, of_nat_S. ring.
  - intros seg Hlast. apply last_index in Hlast as [H _].
    rewrite generator_allocate_length in H.
    apply generator_allocate_lookup in H as (sent & _ & ->). simpl.
    rewrite of_nat_succ, <- of_nat_S.
    replace (S (pred (length sentences))) with (length sentences) by lia.
    field. done.
Qed.

Lemma gen_allocate_equal_slices slide sentences :
  sentences ≠ [] →
  equal_slices (SlideContent.start_time slide) (SlideContent.duration slide)
    (length sentences) (LectureGen.allocate slide sentences).
Proof.
  intros Hne.
  assert (Hn : (0 < length sentences)%nat)
    by (destruct sentences; [done | simpl; lia]).
  pose proof (of_nat_nonzero _ Hn) as Hnz.
  repeat split.
  - apply gen_allocate_length.
  - apply gen_allocate_lookup in H as (sent & _ & ->). simpl. ring.
  - apply gen_allocate_lookup in H as (sent & _ & ->). simpl.
    rewrite of_nat_S. ring.
  - apply gen_allocate_lookup in H as (sent & _ & ->). simpl. ring.
  - intros i seg seg' H H'.
    apply gen_allocate_lookup in H as (sent & _ & ->).
    apply gen_allocate_lookup in H' as (sent' & _ & ->). simpl.
    rewrite of_nat_S. ring.
  - intros seg Hlast. apply last_index in Hlast as [H _].
    rewrite gen_allocate_length in H.
    apply gen_allocate_lookup in H as (sent & _ & ->). simpl.
    assert (Hpred : of_nat (pred (length sentences))
                    == of_nat (length sentences) - 1).
    { rewrite <- (Nat.succ_pred_pos _ Hn) at 2. rewrite of_nat_S. ring. }
    rewrite Hpred. field. done.
Qed.

Lemma slide_subtitles_generator_unfold tok slide :
  truthy (strip (SlideContent.narration_text slide)) = true →
  0 < SlideContent.duration slide →
  LectureGenerator.slide_subtitles tok slide
  = LectureGenerator.allocate slide
      (split_into_sentences tok (SlideContent.narration_text slide)).
Proof.
  intros Htext Hdur. unfold LectureGenerator.slide_subtitles.
  by rewrite Htext, (Qeq_bool_false_pos _ Hdur).
Qed.

Lemma slide_subtitles_gen_unfold tok slide :
  truthy (strip (SlideContent.narration_text slide)) = true →
  0 < SlideContent.duration slide →
  LectureGen.slide_subtitles tok slide
  = LectureGen.allocate slide
      (split_into_sentences tok (SlideContent.narration_text slide)).
Proof.
  intros Htext Hdur. unfold LectureGen.slide_subtitles.
  by rewrite Htext, (Qeq_bool_false_pos _ Hdur).
Qed.

Lemma generator_subtitles_concat tok slides :
  LectureGenerator.generate_subtitles tok slides
  = concat (LectureGenerator.slide_subtitles tok <$> slides).
Proof.
  unfold LectureGenerator.generate_subtitles.
  assert (H : ∀ acc, fold_left
                (λ subtitles slide,
                   subtitles ++ LectureGenerator.slide_subtitles tok slide)
                slides acc
              = acc ++ concat (LectureGenerator.slide_subtitles tok <$> slides)).
  { induction slides as [|s rest IH]; intros acc; simpl.
    - by rewrite app_nil_r.
    - by rewrite IH, <- app_assoc. }
  apply (H []).
Qed.

Lemma gen_subtitles_concat tok slides :
  LectureGen.generate_subtitles tok slides
  = concat (LectureGen.slide_subtitles tok <$> slides).
Proof.
  unfold LectureGen.generate_subtitles.
  assert (H : ∀ acc, fold_left
                (λ subtitles slide,
                   subtitles ++ LectureGen.slide_subtitles tok slide)
                slides acc
              = acc ++ concat (LectureGen.slide_subtitles tok <$> slides)).
  { induction slides as [|s rest IH]; intros acc; simpl.
    - by rewrite app_nil_r.
    - by rewrite IH, <- app_assoc. }
  apply (H []).
Qed.

(** C1: a slide with non-blank narration, duration [D > 0] and [n > 0]
    sentences gets exactly [n] segments; segment [i] runs from offset
    [i * (D / n)] to offset [(i + 1) * (D / n)] after the slide's start, so
    it lasts [D / n], each segment ends where the next one starts, and the
    last one ends at offset [D]. Both generator scripts agree on this. *)
Theorem C1_allocator_equal_slices
    (sent_tokenize : str → option (list str)) (slide : SlideContent.t) :
  truthy (strip (SlideContent.narration_text slide)) = true →
  0 < SlideContent.duration slide →
  split_into_sentences sent_tokenize (SlideContent.narration_text slide) ≠ [] →
  equal_slices (SlideContent.start_time slide) (SlideContent.duration slide)
    (length (split_into_sentences sent_tokenize
               (SlideContent.narration_text slide)))
    (LectureGenerator.slide_subtitles sent_tokenize slide)
  ∧ equal_slices (SlideContent.start_time slide) (SlideContent.duration slide)
      (length (split_into_sentences sent_tokenize
                 (SlideContent.narration_text slide)))
      (LectureGen.slide_subtitles sent_tokenize slide).
Proof.
  intros Htext Hdur Hne. split.
  - rewrite slide_subtitles_generator_unfold by done.
    by apply generator_allocate_equal_slices.
  - rewrite slide_subtitles_gen_unfold by done.
    by apply gen_allocate_equal_slices.
Qed.

Lemma C1_allocator_equal_slices_witness :
  equal_slices 10 6 3
    (LectureGenerator.slide_subtitles (λ _, None)
       (SlideContent.mk 1 [] (lit "One. Two! Three?") 6 10)).
Proof.
  refine (proj1 (C1_allocator_equal_slices (λ _, None)
                   (SlideContent.mk 1 [] (lit "One. Two! Three?") 6 10)
                   _ _ _)).
  - vm_compute. reflexivity.
  - vm_compute. reflexivity.
  - vm_compute. discriminate.
Defined.

(** C7, as the code has it: a slide of duration [0] gets no segment at
    all, whatever its sentences are; the call with the one sentence ["a"]
    returns the empty list. *)
Theorem C7_zero_duration_no_segment
    (sent_tokenize : str → option (list str)) (slide : SlideContent.t) :
  SlideContent.duration slide == 0 →
  LectureGenerator.slide_subtitles sent_tokenize slide = [].
Proof.
  intros Hzero. unfold LectureGenerator.slide_subtitles.
  apply Qeq_bool_iff in Hzero. rewrite Hzero.
  by rewrite orb_true_r.
Qed.

Lemma C7_zero_duration_no_segment_witness :
  LectureGenerator.slide_subtitles (λ _, Some [lit "a"])
    (SlideContent.mk 1 [] (lit "a") 0 0) = [].
Proof.
  apply (C7_zero_duration_no_segment (λ _, Some [lit "a"])
           (SlideContent.mk 1 [] (lit "a") 0 0)).
  vm_compute. reflexivity.
Defined.

(** The claim C7 as stated fails: with total duration [0] and the single
    sentence ["a"] the allocator does not return one segment [{0, 0}]. *)
Lemma C7_counterexample :
  ¬ ∃ seg,
      LectureGenerator.slide_subtitles (λ _, Some [lit "a"])
        (SlideContent.mk 1 [] (lit "a") 0 0) = [seg]
      ∧ SubtitleSegment.start_time seg == 0
      ∧ SubtitleSegment.end_time seg == 0.
Proof.
  intros (seg & Hsegs & _). vm_compute in Hsegs. discriminate.
Qed.

(** C10: a non-empty result of [clean_for_tts] ends in one of [.], [!],
    [?]; hence so does every non-empty narration text of a loaded slide. *)
Theorem C10_clean_for_tts_terminal (rewrite_passes : str → str) :
  (∀ text c,
     last_char (clean_for_tts rewrite_passes text) = Some c →
     [c] = lit "." ∨ [c] = lit "!" ∨ [c] = lit "?")
  ∧ (∀ data slide c,
       slide ∈ load_slides_content rewrite_passes data →
       last_char (SlideContent.narration_text slide) = Some c →
       [c] = lit "." ∨ [c] = lit "!" ∨ [c] = lit "?").
Proof.
  assert (Hclean : ∀ text c,
     last_char (clean_for_tts rewrite_passes text) = Some c →
     [c] = lit "." ∨ [c] = lit "!" ∨ [c] = lit "?").
  { intros text c. unfold clean_for_tts, last_char.
    destruct (truthy text); simpl; [|done].
    destruct (last (strip (rewrite_passes text))) as [c0|] eqn:Hlast.
    - destruct (is_terminal c0) eqn:Hterm; simpl.
      + rewrite Hlast. intros [= <-]. unfold is_terminal in Hterm.
        apply orb_true_iff in Hterm as [Hterm|Hterm];
          [apply orb_true_iff in Hterm as [Hterm|Hterm]|];
          apply N.eqb_eq in Hterm; subst; auto.
      + change (lit ".") with [46%N]. rewrite last_snoc.
        intros [= <-]. by left.
    - by rewrite Hlast. }
  split; [done|].
  intros data slide c Hin. unfold load_slides_content in Hin.
  apply list_elem_of_lookup in Hin as [i Hi].
  rewrite list_lookup_imap in Hi.
  destruct (data !! i) as [s|]; simplify_eq/=.
  apply Hclean.
Qed.

Lemma C10_clean_for_tts_terminal_witness :
  [46%N] = lit "." ∨ [46%N] = lit "!" ∨ [46%N] = lit "?".
Proof.
  apply (proj1 (C10_clean_for_tts_terminal (λ text, text))
           (lit " Hello world ") 46%N).
  vm_compute. reflexivity.
Defined.

(** ** Sequencing of the slides *)

Lemma total_duration_cons slide slides :
  total_duration (slide :: slides)
  = SlideContent.duration slide + total_duration slides.
Proof. reflexivity. Qed.

Lemma total_duration_nil : total_duration [] = 0.
Proof. reflexivity. Qed.

Lemma audio_loop_spec synthesize slides :
  Forall fresh slides →
  ∀ cumulative slides' audio_files,
    audio_loop synthesize slides cumulative = Some (slides', audio_files) →
    length slides' = length slides
    ∧ ∀ i slide, slides' !! i = Some slide →
        if narrated slide
        then SlideContent.start_time slide
             == cumulative + total_duration (take i slides')
        else slides !! i = Some slide.
Proof.
  induction 1 as [|s rest Hs Hrest IH]; intros c slides' files Hloop.
  - simplify_eq/=. split; [done|]. intros i slide Hi. by rewrite lookup_nil in Hi.
  - simpl in Hloop.
    destruct (truthy (strip (SlideContent.narration_text s))) eqn:Htext;
      simpl in Hloop.
    + destruct (synthesize s) as [d|]; simpl in Hloop; [|done].
      destruct (audio_loop synthesize rest (c + d)) as [[rest' fs]|] eqn:Hrec;
        simplify_eq/=.
      destruct (IH _ _ _ Hrec) as [Hlen Hat]. split; [by rewrite Hlen|].
      intros [|i] slide Hi; simplify_eq/=.
      * unfold narrated. cbn [SlideContent.narration_text]. rewrite Htext.
        cbn [take SlideContent.start_time]. rewrite total_duration_nil. ring.
      * specialize (Hat i slide Hi). destruct (narrated slide); [|done].
        rewrite Hat. cbn [take]. rewrite total_duration_cons.
        cbn [SlideContent.duration]. ring.
    + destruct (audio_loop synthesize rest c) as [[rest' fs]|] eqn:Hrec;
        simplify_eq/=.
      destruct (IH _ _ _ Hrec) as [Hlen Hat]. split; [by rewrite Hlen|].
      intros [|i] slide Hi; simplify_eq/=.
      * unfold narrated. by rewrite Htext.
      * specialize (Hat i slide Hi). destruct (narrated slide); [|done].
        rewrite Hat. cbn [take]. rewrite total_duration_cons.
        unfold fresh in Hs. rewrite Hs. ring.
Qed.

Lemma audio_loop_completes synthesize slides cumulative :
  (∀ slide, slide ∈ slides → narrated slide = true →
     is_Some (synthesize slide)) →
  is_Some (audio_loop synthesize slides cumulative).
Proof.
  revert cumulative. induction slides as [|s rest IH]; intros c Hok; simpl.
  - by eauto.
  - assert (Hrest : ∀ c', is_Some (audio_loop synthesize rest c')).
    { intros c'. apply IH. intros slide Hin. apply Hok. by right. }
    destruct (truthy (strip (SlideContent.narration_text s))) eqn:Htext;
      simpl.
    + destruct (Hok s ltac:(left) Htext) as [d ->]. simpl.
      destruct (Hrest (c + d)) as [[rest' fs] ->]. by eauto.
    + destruct (Hrest c) as [[rest' fs] ->]. by eauto.
Qed.

(** C6, as the code has it: after a run over freshly loaded slides that no
    synthesis failure interrupts, every slide with a non-blank narration
    starts at the sum of the durations of the slides before it; a slide
    with a blank narration is skipped and left as it was loaded. *)
Theorem C6_start_time_cumulative
    (synthesize : SlideContent.t → option Q)
    (slides slides' : list SlideContent.t) (audio_files : list Z) :
  Forall fresh slides →
  generate_audio_segments synthesize slides = Some (slides', audio_files) →
  ∀ i slide, slides' !! i = Some slide →
    if narrated slide
    then SlideContent.start_time slide == total_duration (take i slides')
    else slides !! i = Some slide.
Proof.
  intros Hfresh Hgen i slide Hi.
  destruct (audio_loop_spec synthesize slides Hfresh _ _ _ Hgen) as [_ Hat].
  specialize (Hat i slide Hi). destruct (narrated slide); [|done].
  rewrite Hat. ring.
Qed.

Lemma C6_start_time_cumulative_witness :
  SlideContent.start_time (SlideContent.mk 3 [] (lit "Goodbye.") 2 2)
  == total_duration (take 2 deck_with_gap_sequenced).
Proof.
  assert (Hfresh : Forall fresh
                     (load_slides_content (λ text, text) deck_with_gap)).
  { repeat constructor. }
  exact (C6_start_time_cumulative (λ _, Some 2)
           (load_slides_content (λ text, text) deck_with_gap)
           deck_with_gap_sequenced [1%Z; 3%Z] Hfresh eq_refl
           2%nat (SlideContent.mk 3 [] (lit "Goodbye.") 2 2) eq_refl).
Defined.

(** The claim C6 as stated fails on the slide without text: it keeps the
    start time [0] it was loaded with, although the slide before it lasts
    two seconds. *)
Lemma C6_counterexample :
  ¬ (∀ synthesize slides slides' audio_files,
       Forall fresh slides →
       generate_audio_segments synthesize slides
       = Some (slides', audio_files) →
       ∀ i slide, slides' !! i = Some slide →
         SlideContent.start_time slide == total_duration (take i slides')).
Proof.
  intros Hclaim.
  specialize (Hclaim (λ _, Some 2)
                (load_slides_content (λ text, text) deck_with_gap)
                _ _ ltac:(repeat constructor) eq_refl
                1%nat _ eq_refl).
  vm_compute in Hclaim. discriminate.
Qed.

(** ** Dictionaries *)

Section dict_facts.
Context {V : Type}.
Implicit Types (d : Dict.t V) (k : Z) (v : V).

Lemma dict_get_set_eq d k v : Dict.get (Dict.set d k v) k = Some v.
Proof.
  induction d as [|[k' v'] rest IH]; simpl.
  - by rewrite Z.eqb_refl.
  - destruct (Z.eqb k' k) eqn:E; simpl; by rewrite E.
Qed.

Lemma dict_get_set_ne d k k' v :
  k ≠ k' → Dict.get (Dict.set d k v) k' = Dict.get d k'.
Proof.
  intros Hne. induction d as [|[k0 v0] rest IH]; simpl.
  - destruct (Z.eqb_spec k k'); done.
  - destruct (Z.eqb_spec k0 k) as [->|]; simpl.
    + destruct (Z.eqb_spec k k'); done.
    + by rewrite IH.
Qed.

Lemma dict_get_None d k : Dict.get d k = None ↔ k ∉ Dict.keys d.
Proof.
  unfold Dict.keys. induction d as [|[k' v'] rest IH]; simpl.
  - split; [intros _; apply not_elem_of_nil | done].
  - rewrite not_elem_of_cons. destruct (Z.eqb_spec k' k) as [->|Hne].
    + split; [done | intros [? _]; done].
    + rewrite IH. split; [intros ?; split; [congruence | done] | by intros [_ ?]].
Qed.

Lemma dict_get_is_Some d k : is_Some (Dict.get d k) ↔ k ∈ Dict.keys d.
Proof.
  destruct (Dict.get d k) eqn:E.
  - split; [|by eauto]. intros _.
    destruct (decide (k ∈ Dict.keys d)) as [|Hn]; [done|].
    apply dict_get_None in Hn. congruence.
  - split; [by intros [? ?]|]. intros Hin.
    by apply dict_get_None in E.
Qed.

Lemma dict_get_elem_of d k v : Dict.get d k = Some v → (k, v) ∈ d.
Proof.
  induction d as [|[k' v'] rest IH]; simpl; [done|].
  destruct (Z.eqb_spec k' k) as [->|Hne].
  - intros [= ->]. left.
  - intros H. right. by apply IH.
Qed.

Lemma dict_elem_of_get d k v : Dict.wf d → (k, v) ∈ d → Dict.get d k = Some v.
Proof.
  unfold Dict.wf, Dict.keys.
  induction d as [|[k' v'] rest IH]; simpl; intros Hwf Hin.
  - by apply elem_of_nil in Hin.
  - apply NoDup_cons in Hwf as [Hfresh Hwf].
    apply elem_of_cons in Hin as [[= -> ->]|Hin].
    + by rewrite Z.eqb_refl.
    + destruct (Z.eqb_spec k' k) as [->|Hne]; [|by apply IH].
      exfalso. apply Hfresh. apply list_elem_of_fmap. by exists (k, v).
Qed.

Lemma dict_set_fresh d k v :
  k ∉ Dict.keys d → Dict.set d k v = d ++ [(k, v)].
Proof.
  unfold Dict.keys. induction d as [|[k' v'] rest IH]; simpl; [done|].
  rewrite not_elem_of_cons. intros [Hne Hnin].
  destruct (Z.eqb_spec k' k) as [->|_]; [done|]. by rewrite IH.
Qed.

Lemma dict_keys_set d k v :
  Dict.keys (Dict.set d k v)
  = if Dict.contains d k then Dict.keys d else Dict.keys d ++ [k].
Proof.
  unfold Dict.contains, Dict.keys.
  induction d as [|[k' v'] rest IH]; simpl; [done|].
  destruct (Z.eqb_spec k' k) as [->|Hne]; simpl; [done|].
  change (list_fmap (Z * V)%type Z fst) with (fmap (M:=list) (@fst Z V)).
  rewrite IH. by destruct (Dict.get rest k).
Qed.

Lemma dict_wf_set d k v : Dict.wf d → Dict.wf (Dict.set d k v).
Proof.
  unfold Dict.wf. rewrite dict_keys_set. unfold Dict.contains.
  destruct (Dict.get d k) eqn:E; [done|]. intros Hwf.
  apply NoDup_app. split_and!; [done| |apply NoDup_singleton].
  intros x Hx ->%list_elem_of_singleton. by apply dict_get_None in E.
Qed.

Lemma dict_get_permutation d d' k :
  Dict.wf d → d' ≡ₚ d → Dict.get d' k = Dict.get d k.
Proof.
  intros Hwf Hperm.
  assert (Hwf' : Dict.wf d').
  { unfold Dict.wf, Dict.keys in *. by rewrite Hperm. }
  destruct (Dict.get d k) as [v|] eqn:E.
  - apply dict_elem_of_get; [done|]. rewrite Hperm. by apply dict_get_elem_of.
  - apply dict_get_None. apply dict_get_None in E.
    unfold Dict.keys in *. by rewrite Hperm.
Qed.

End dict_facts.

(** ** The re-binner: assignment of the subtitles *)

Lemma extended_nil entry : extended entry [] = entry.
Proof. destruct entry; simpl; [by rewrite app_nil_r | done]. Qed.

Lemma extended_app entry segs1 segs2 :
  extended (extended entry segs1) segs2 = extended entry (segs1 ++ segs2).
Proof.
  destruct entry as [l|], segs1 as [|s1 l1], segs2 as [|s2 l2]; simpl;
    rewrite ?app_nil_r, <- ?app_assoc; done.
Qed.

Lemma find_slide_elem_of boundaries sub m bounds :
  find_slide boundaries sub = Some (m, bounds) →
  (m, bounds) ∈ boundaries ∧ within bounds sub = true.
Proof.
  induction boundaries as [|[k b] rest IH]; simpl; [done|].
  destruct (within b sub) eqn:E.
  - intros [= -> ->]. split; [left | done].
  - intros H. destruct (IH H) as [Hin Hw]. split; [by right | done].
Qed.

Lemma find_slide_None boundaries sub :
  find_slide boundaries sub = None ↔
  Forall (λ kb, within kb.2 sub = false) boundaries.
Proof.
  induction boundaries as [|[k b] rest IH]; simpl.
  - split; [constructor | done].
  - rewrite Forall_cons. simpl. destruct (within b sub).
    + split; [done | by intros [? _]].
    + rewrite IH. tauto.
Qed.

Lemma get_assign boundaries subtitles_by_slide sub n :
  Dict.get (assign boundaries subtitles_by_slide sub) n
  = extended (Dict.get subtitles_by_slide n)
      (option_list (segment_for boundaries n sub)).
Proof.
  unfold assign, segment_for.
  destruct (find_slide boundaries sub) as [[m b]|]; simpl;
    [|by rewrite extended_nil].
  destruct (Z.eqb_spec m n) as [->|Hne]; simpl.
  - rewrite dict_get_set_eq. unfold Dict.contains.
    destruct (Dict.get subtitles_by_slide n) eqn:E; simpl.
    + by rewrite E.
    + by rewrite dict_get_set_eq.
  - rewrite dict_get_set_ne by done. rewrite extended_nil.
    destruct (Dict.contains subtitles_by_slide m); simpl; [done|].
    by rewrite dict_get_set_ne.
Qed.

Lemma get_fold_assign boundaries (all_subtitles : list Sub.t)
    subtitles_by_slide n :
  Dict.get (fold_left (assign boundaries) all_subtitles subtitles_by_slide) n
  = extended (Dict.get subtitles_by_slide n)
      (omap (segment_for boundaries n) all_subtitles).
Proof.
  revert subtitles_by_slide.
  induction all_subtitles as [|sub rest IH]; intros acc; simpl.
  - by rewrite extended_nil.
  - rewrite IH, get_assign, extended_app.
    by destruct (segment_for boundaries n sub).
Qed.

Lemma get_rebin audio_durations all_subtitles n :
  Dict.get (rebin audio_durations all_subtitles) n
  = extended None
      (omap (segment_for (slide_boundaries audio_durations) n) all_subtitles).
Proof. unfold rebin. by rewrite get_fold_assign. Qed.

Lemma boundaries_loop_wf audio_durations keys st :
  Dict.wf st.1 → Dict.wf (boundaries_loop audio_durations keys st).1.
Proof.
  unfold boundaries_loop. revert st.
  induction keys as [|k rest IH]; intros [sb c] Hwf; simpl; [done|].
  apply IH. simpl. by apply dict_wf_set.
Qed.

Lemma slide_boundaries_wf audio_durations :
  Dict.wf (slide_boundaries audio_durations).
Proof.
  unfold slide_boundaries. apply boundaries_loop_wf. simpl. apply NoDup_nil_2.
Qed.

Lemma segment_for_slide_of boundaries n bounds sub :
  Dict.wf boundaries →
  Dict.get boundaries n = Some bounds →
  segment_for boundaries n sub
  = if decide (slide_of boundaries sub = Some n)
    then Some (relative bounds sub) else None.
Proof.
  intros Hwf Hget. unfold segment_for, slide_of.
  destruct (find_slide boundaries sub) as [[m b]|] eqn:E;
    destruct (decide (_ = Some n)) as [Heq|Hneq]; simplify_eq/=.
  - rewrite Z.eqb_refl.
    apply find_slide_elem_of in E as [Hin _].
    apply (dict_elem_of_get _ _ _ Hwf) in Hin. congruence.
  - destruct (Z.eqb_spec m n) as [->|Hne]; done.
  - done.
Qed.

Lemma omap_segment_for boundaries n bounds (all_subtitles : list Sub.t) :
  Dict.wf boundaries →
  Dict.get boundaries n = Some bounds →
  omap (segment_for boundaries n) all_subtitles
  = relative bounds
    <$> filter (λ sub, slide_of boundaries sub = Some n) all_subtitles.
Proof.
  intros Hwf Hget. induction all_subtitles as [|sub rest IH]; [done|].
  rewrite filter_cons.
  change (omap (segment_for boundaries n) (sub :: rest))
    with (match segment_for boundaries n sub with
          | Some seg => seg :: omap (segment_for boundaries n) rest
          | None => omap (segment_for boundaries n) rest
          end).
  rewrite (segment_for_slide_of _ _ _ _ Hwf Hget), IH.
  by destruct (decide (slide_of boundaries sub = Some n)).
Qed.

(** C4: the list kept for slide [n] is made of the subtitles assigned to
    it, in the order they were read, each shifted by the start of the
    slide's boundary: the start and the end are the original ones minus
    that start, nothing else is computed, and the text is unchanged. *)
Theorem C4_relative_in_encounter_order
    (audio_durations : Dict.t Q) (all_subtitles : list Sub.t)
    (n : Z) (bounds : Bounds.t) :
  Dict.get (slide_boundaries audio_durations) n = Some bounds →
  segments_of (rebin audio_durations all_subtitles) n
  = relative bounds
    <$> filter (λ sub, slide_of (slide_boundaries audio_durations) sub
                       = Some n) all_subtitles
  ∧ ∀ sub,
      Sub.start (relative bounds sub) = Sub.start sub - Bounds.start bounds
      ∧ Sub.end_ (relative bounds sub) = Sub.end_ sub - Bounds.start bounds
      ∧ Sub.text (relative bounds sub) = Sub.text sub.
Proof.
  intros Hget. split.
  - unfold segments_of. rewrite get_rebin.
    rewrite (omap_segment_for _ _ _ _ (slide_boundaries_wf _) Hget).
    by destruct (relative bounds <$> _).
  - intros sub. by repeat split.
Qed.

(** C9: slide [n] is a key of the output exactly when some subtitle was
    assigned to it, and no key is bound to an empty list. *)
Theorem C9_keys_are_assigned_slides
    (audio_durations : Dict.t Q) (all_subtitles : list Sub.t) (n : Z) :
  (n ∈ Dict.keys (rebin audio_durations all_subtitles)
   ↔ ∃ sub, sub ∈ all_subtitles
       ∧ slide_of (slide_boundaries audio_durations) sub = Some n)
  ∧ Dict.get (rebin audio_durations all_subtitles) n ≠ Some [].
Proof.
  rewrite <- dict_get_is_Some, get_rebin.
  set (sb := slide_boundaries audio_durations).
  assert (Hsome : ∀ sub, is_Some (segment_for sb n sub)
                         ↔ slide_of sb sub = Some n).
  { intros sub. unfold segment_for, slide_of.
    destruct (find_slide sb sub) as [[m b]|]; simpl.
    - destruct (Z.eqb_spec m n) as [->|Hne].
      + split; [done | by eauto].
      + split; [by intros [? ?] | congruence].
    - split; [by intros [? ?] | done]. }
  split.
  - split.
    + intros Hex.
      destruct (omap (segment_for sb n) all_subtitles) as [|seg l] eqn:E.
      { by destruct Hex. }
      assert (Hin : seg ∈ omap (segment_for sb n) all_subtitles)
        by (rewrite E; left).
      apply list_elem_of_omap in Hin as (sub & Hsub & Hseg).
      exists sub. split; [done|]. apply Hsome. by eauto.
    + intros (sub & Hsub & Hslide). apply Hsome in Hslide as [seg Hseg].
      assert (Hin : seg ∈ omap (segment_for sb n) all_subtitles)
        by (apply list_elem_of_omap; eauto).
      destruct (omap (segment_for sb n) all_subtitles);
        [by apply elem_of_nil in Hin | by eauto].
  - by destruct (omap (segment_for sb n) all_subtitles).
Qed.

(** C8: empty input is no error. Without sentences the allocator returns
    no segment (and without slides no subtitle); without slides, or
    without subtitles, the re-binner returns the empty dictionary. *)
Theorem C8_empty_input_empty_result :
  (∀ sent_tokenize slide,
     split_into_sentences sent_tokenize (SlideContent.narration_text slide)
     = [] →
     LectureGenerator.slide_subtitles sent_tokenize slide = []
     ∧ LectureGen.slide_subtitles sent_tokenize slide = [])
  ∧ (∀ sent_tokenize,
       LectureGenerator.generate_subtitles sent_tokenize [] = []
       ∧ LectureGen.generate_subtitles sent_tokenize [] = [])
  ∧ (∀ all_subtitles, rebin [] all_subtitles = [])
  ∧ (∀ audio_durations, rebin audio_durations [] = []).
Proof.
  split_and!.
  - intros tok slide Hnone.
    unfold LectureGenerator.slide_subtitles, LectureGen.slide_subtitles.
    rewrite Hnone. simpl.
    by destruct (_ || _).
  - done.
  - intros all_subtitles. unfold rebin.
    change (slide_boundaries []) with (@nil (Z * Bounds.t)).
    induction all_subtitles as [|sub rest IH]; [done|]. simpl. apply IH.
  - done.
Qed.

Lemma C8_empty_input_empty_result_witness :
  LectureGenerator.slide_subtitles (λ _, Some [])
    (SlideContent.mk 1 [] (lit "Hello.") 3 0) = []
  ∧ LectureGen.slide_subtitles (λ _, Some [])
      (SlideContent.mk 1 [] (lit "Hello.") 3 0) = [].
Proof.
  apply (proj1 C8_empty_input_empty_result (λ _, Some [])
           (SlideContent.mk 1 [] (lit "Hello.") 3 0)).
  reflexivity.
Defined.

Lemma C4_relative_in_encounter_order_witness :
  segments_of
    (rebin [(1%Z, 5); (2%Z, 5)]
       [Sub.mk (15 # 2) (41 # 5) (lit "x"); Sub.mk 1 2 (lit "y");
        Sub.mk 6 7 (lit "z")]) 2
  = relative (Bounds.mk 5 (5 + 5))
    <$> filter (λ sub, slide_of (slide_boundaries [(1%Z, 5); (2%Z, 5)]) sub
                       = Some 2%Z)
          [Sub.mk (15 # 2) (41 # 5) (lit "x"); Sub.mk 1 2 (lit "y");
           Sub.mk 6 7 (lit "z")].
Proof.
  apply (C4_relative_in_encounter_order [(1%Z, 5); (2%Z, 5)]
           [Sub.mk (15 # 2) (41 # 5) (lit "x"); Sub.mk 1 2 (lit "y");
            Sub.mk 6 7 (lit "z")] 2 (Bounds.mk 5 (5 + 5))).
  reflexivity.
Defined.

(** ** The re-binner: the boundaries of the slides *)

Lemma sumQ_cons x l : sumQ (x :: l) = x + sumQ l.
Proof. reflexivity. Qed.

Lemma sumQ_permutation l1 l2 : l1 ≡ₚ l2 → sumQ l1 == sumQ l2.
Proof.
  induction 1 as [|x l l' _ IH|x y l|l l' l'' _ IH1 _ IH2].
  - reflexivity.
  - rewrite !sumQ_cons, IH. reflexivity.
  - rewrite !sumQ_cons. ring.
  - by rewrite IH1.
Qed.

Lemma sorted_permutation keys : sorted keys ≡ₚ keys.
Proof. apply merge_sort_Permutation. Qed.

Lemma sorted_ascending keys :
  NoDup keys → StronglySorted Z.lt (sorted keys).
Proof.
  intros Hnd.
  assert (Hnd' : NoDup (sorted keys)) by by rewrite sorted_permutation.
  assert (Hle : StronglySorted Z.le (sorted keys)).
  { apply Sorted_StronglySorted; [apply _|]. apply Sorted_merge_sort. apply _. }
  induction Hle as [|x l Hl IH Hx]; [constructor|].
  apply NoDup_cons in Hnd' as [Hnin Hnd'].
  constructor; [by apply IH|].
  apply Forall_forall. intros y Hy.
  rewrite Forall_forall in Hx. specialize (Hx y Hy).
  assert (x ≠ y) by (intros ->; done). lia.
Qed.

Lemma duration_of_elem audio_durations k dur :
  Dict.wf audio_durations → (k, dur) ∈ audio_durations →
  duration_of audio_durations k = dur.
Proof.
  intros Hwf Hin. unfold duration_of.
  by rewrite (dict_elem_of_get _ _ _ Hwf Hin).
Qed.

Lemma duration_of_nonneg audio_durations k :
  nonneg audio_durations → 0 <= duration_of audio_durations k.
Proof.
  intros Hnn. unfold duration_of.
  destruct (Dict.get audio_durations k) as [dur|] eqn:E; simpl.
  - apply dict_get_elem_of in E. unfold nonneg in Hnn.
    rewrite Forall_forall in Hnn. apply (Hnn _ E).
  - apply Qle_refl.
Qed.

Lemma cumulative_bounds_keys audio_durations keys c :
  Dict.keys (cumulative_bounds audio_durations keys c) = keys.
Proof.
  unfold Dict.keys. revert c.
  induction keys as [|k rest IH]; intros c; [done|].
  cbn [cumulative_bounds fmap list_fmap]. simpl. f_equal. apply IH.
Qed.

Lemma cumulative_bounds_ext d d' keys c :
  (∀ k, duration_of d' k = duration_of d k) →
  cumulative_bounds d' keys c = cumulative_bounds d keys c.
Proof.
  intros Hext. revert c. induction keys as [|k rest IH]; intros c; [done|].
  simpl. by rewrite Hext, IH.
Qed.

Lemma boundaries_loop_fresh audio_durations keys acc c :
  NoDup keys →
  (∀ k, k ∈ keys → k ∉ Dict.keys acc) →
  (boundaries_loop audio_durations keys (acc, c)).1
  = acc ++ cumulative_bounds audio_durations keys c.
Proof.
  unfold boundaries_loop. revert acc c.
  induction keys as [|k rest IH]; intros acc c Hnd Hfresh; simpl.
  - by rewrite app_nil_r.
  - apply NoDup_cons in Hnd as [Hk Hnd].
    rewrite dict_set_fresh by (apply Hfresh; left).
    rewrite IH; [by rewrite <- app_assoc | done |].
    intros k' Hk'. unfold Dict.keys. rewrite fmap_app.
    apply not_elem_of_app. split.
    + apply Hfresh. by right.
    + simpl. rewrite list_elem_of_singleton. by intros ->.
Qed.

Lemma slide_boundaries_cumulative audio_durations :
  Dict.wf audio_durations →
  slide_boundaries audio_durations
  = cumulative_bounds audio_durations (sorted (Dict.keys audio_durations)) 0.
Proof.
  intros Hwf. unfold slide_boundaries.
  rewrite boundaries_loop_fresh; [done | |].
  - by rewrite sorted_permutation.
  - intros k _. apply not_elem_of_nil.
Qed.

Lemma cumulative_bounds_range audio_durations keys c k b :
  nonneg audio_durations →
  (k, b) ∈ cumulative_bounds audio_durations keys c →
  c <= Bounds.start b ∧ Bounds.start b <= Bounds.end_ b.
Proof.
  intros Hnn. revert c. induction keys as [|k0 rest IH]; intros c Hin.
  - by apply elem_of_nil in Hin.
  - pose proof (duration_of_nonneg _ k0 Hnn) as H0.
    simpl in Hin. apply elem_of_cons in Hin as [[= -> ->]|Hin].
    + cbn [Bounds.start Bounds.end_]. split; lra.
    + destruct (IH _ Hin) as [H1 H2]. split; lra.
Qed.

Lemma filter_below_nil n (keys : list Z) :
  Forall (Z.lt n) keys → filter (λ k, (k < n)%Z) keys = [].
Proof.
  induction 1 as [|k rest Hk _ IH]; [done|].
  rewrite filter_cons_False by lia. done.
Qed.

Lemma cumulative_bounds_get audio_durations keys c n b :
  StronglySorted Z.lt keys →
  Dict.get (cumulative_bounds audio_durations keys c) n = Some b →
  Bounds.start b
  == c + sumQ (duration_of audio_durations
               <$> filter (λ k, (k < n)%Z) keys)
  ∧ Bounds.end_ b = Bounds.start b + duration_of audio_durations n.
Proof.
  intros Hsorted. revert c.
  induction Hsorted as [|k rest Hrest IH Hk]; intros c; simpl; [done|].
  destruct (Z.eqb_spec k n) as [->|Hne].
  - intros [= <-]. cbn [Bounds.start Bounds.end_].
    rewrite filter_cons_False by lia.
    rewrite filter_below_nil by done. split; [|done].
    change (sumQ (duration_of audio_durations <$> [])) with 0. ring.
  - intros Hget.
    assert (Hin : n ∈ rest).
    { rewrite <- (cumulative_bounds_keys audio_durations rest
                    (c + duration_of audio_durations k)).
      apply dict_get_is_Some. by eauto. }
    rewrite Forall_forall in Hk. specialize (Hk n Hin).
    rewrite filter_cons_True by done.
    destruct (IH _ Hget) as [Hstart Hend]. split; [|done].
    rewrite Hstart, fmap_cons, sumQ_cons. ring.
Qed.

Lemma cumulative_bounds_contiguous audio_durations keys c i n b n' b' :
  cumulative_bounds audio_durations keys c !! i = Some (n, b) →
  cumulative_bounds audio_durations keys c !! S i = Some (n', b') →
  Bounds.end_ b = Bounds.start b'.
Proof.
  revert c i. induction keys as [|k rest IH]; intros c i; [done|].
  destruct i as [|i]; simpl.
  - intros [= <- <-]. destruct rest; simpl; [done|]. by intros [= <- <-].
  - apply IH.
Qed.

Lemma cumulative_bounds_last audio_durations keys c n b :
  last (cumulative_bounds audio_durations keys c) = Some (n, b) →
  Bounds.end_ b == c + sumQ (duration_of audio_durations <$> keys).
Proof.
  revert c. induction keys as [|k rest IH]; intros c; [done|].
  destruct rest as [|k' rest'].
  - intros [= <- <-]. cbn [Bounds.end_].
    change (sumQ (duration_of audio_durations <$> [k]))
      with (duration_of audio_durations k + 0). ring.
  - intros Hlast. rewrite fmap_cons, sumQ_cons.
    change (last (cumulative_bounds audio_durations (k :: k' :: rest') c))
      with (last (cumulative_bounds audio_durations (k' :: rest')
                    (c + duration_of audio_durations k))) in Hlast.
    rewrite (IH _ Hlast). ring.
Qed.

Lemma durations_by_key audio_durations (l : list (Z * Q)) :
  Dict.wf audio_durations → l ⊆ audio_durations →
  l.*2 = duration_of audio_durations <$> l.*1.
Proof.
  intros Hwf Hsub. induction l as [|[k dur] rest IH]; [done|].
  rewrite !fmap_cons. simpl. f_equal.
  - symmetry. apply duration_of_elem; [done|]. apply Hsub. left.
  - apply IH. intros x Hx. apply Hsub. by right.
Qed.

Lemma filter_below_keys (d : Dict.t Q) n :
  (filter (λ kv, (kv.1 < n)%Z) d).*1 = filter (λ k, (k < n)%Z) d.*1.
Proof.
  induction d as [|[k dur] rest IH]; [done|].
  rewrite fmap_cons. cbn [fst]. destruct (decide (k < n)%Z).
  - rewrite (filter_cons_True (λ k, (k < n)%Z)) by done.
    rewrite (filter_cons_True (λ kv : Z * Q, (kv.1 < n)%Z)) by done.
    rewrite fmap_cons. cbn [fst]. f_equal. exact IH.
  - rewrite (filter_cons_False (λ k, (k < n)%Z)) by done.
    rewrite (filter_cons_False (λ kv : Z * Q, (kv.1 < n)%Z)) by done.
    exact IH.
Qed.

Lemma sum_before_sorted audio_durations n :
  Dict.wf audio_durations →
  sum_before audio_durations n
  == sumQ (duration_of audio_durations
           <$> filter (λ k, (k < n)%Z) (sorted (Dict.keys audio_durations))).
Proof.
  intros Hwf. unfold sum_before.
  rewrite (durations_by_key audio_durations) by
    (done || intros x Hx; by apply list_elem_of_filter in Hx as [_ ?]).
  apply sumQ_permutation. apply fmap_Permutation.
  rewrite sorted_permutation. unfold Dict.keys.
  by rewrite filter_below_keys.
Qed.

Lemma Qlt_bool_iff x y : Qlt_bool x y = true ↔ x < y.
Proof.
  unfold Qlt_bool. rewrite negb_true_iff.
  destruct (Qle_bool y x) eqn:E.
  - apply Qle_bool_iff in E. split; [done|]. intros H. lra.
  - split; [|done]. intros _. apply Qnot_le_lt. intros H.
    apply Qle_bool_iff in H. congruence.
Qed.

Lemma within_iff bounds sub :
  within bounds sub = true
  ↔ Bounds.start bounds <= Sub.start sub
    ∧ Sub.start sub < Bounds.end_ bounds.
Proof.
  unfold within. by rewrite andb_true_iff, Qle_bool_iff, Qlt_bool_iff.
Qed.

Lemma within_false bounds sub :
  Bounds.end_ bounds <= Sub.start sub → within bounds sub = false.
Proof.
  intros Hle. destruct (within bounds sub) eqn:E; [|done].
  apply within_iff in E as [_ Hlt]. lra.
Qed.

Lemma find_slide_split boundaries sub m bounds :
  find_slide boundaries sub = Some (m, bounds) →
  ∃ l1 l2, boundaries = l1 ++ (m, bounds) :: l2
    ∧ Forall (λ kb, within kb.2 sub = false) l1.
Proof.
  induction boundaries as [|[k b] rest IH]; simpl; [done|].
  destruct (within b sub) eqn:E.
  - intros [= -> ->]. by exists [], rest.
  - intros H. destruct (IH H) as (l1 & l2 & -> & Hl1).
    exists ((k, b) :: l1), l2. split; [done|]. by constructor.
Qed.

Lemma find_slide_at_start audio_durations keys c n b sub :
  nonneg audio_durations →
  Dict.get (cumulative_bounds audio_durations keys c) n = Some b →
  Bounds.start b < Bounds.end_ b →
  Sub.start sub == Bounds.start b →
  find_slide (cumulative_bounds audio_durations keys c) sub = Some (n, b).
Proof.
  intros Hnn Hget Hpos Hstart. revert c Hget.
  induction keys as [|k rest IH]; intros c; simpl; [done|].
  destruct (Z.eqb_spec k n) as [->|Hne].
  - intros [= <-].
    rewrite (proj2 (within_iff _ sub)); [done|].
    cbn [Bounds.start Bounds.end_] in *. split; lra.
  - intros Hget. rewrite within_false; [by apply IH|].
    cbn [Bounds.end_]. apply dict_get_elem_of in Hget.
    apply (cumulative_bounds_range _ _ _ _ _ Hnn) in Hget as [Hc _]. lra.
Qed.

Lemma cumulative_bounds_end_le_last audio_durations keys c k bk n b :
  nonneg audio_durations →
  (k, bk) ∈ cumulative_bounds audio_durations keys c →
  last (cumulative_bounds audio_durations keys c) = Some (n, b) →
  Bounds.end_ bk <= Bounds.end_ b.
Proof.
  intros Hnn. revert c.
  induction keys as [|k0 rest IH]; intros c Hin Hlast.
  - by apply elem_of_nil in Hin.
  - destruct rest as [|k1 rest'].
    + simpl in Hin, Hlast. apply list_elem_of_singleton in Hin.
      simplify_eq. apply Qle_refl.
    + change (last (cumulative_bounds audio_durations (k0 :: k1 :: rest') c))
        with (last (cumulative_bounds audio_durations (k1 :: rest')
                      (c + duration_of audio_durations k0))) in Hlast.
      cbn [cumulative_bounds] in Hin. fold cumulative_bounds in Hin.
      apply elem_of_cons in Hin as [[= -> ->]|Hin].
      * cbn [Bounds.end_].
        assert (Hb : (n, b) ∈ cumulative_bounds audio_durations (k1 :: rest')
                       (c + duration_of audio_durations k0)).
        { apply last_Some in Hlast as [l' ->].
          apply elem_of_app. right. left. }
        apply (cumulative_bounds_range _ _ _ _ _ Hnn) in Hb as [H1 H2]. lra.
      * by apply (IH _ Hin).
Qed.

(** C5: the boundaries are listed by ascending slide number whatever the
    order of the entries of the durations; the boundary of slide [n]
    starts at the sum of the durations of the slides numbered below [n]
    and ends one duration of [n] later; the first boundary starts at [0],
    each boundary ends where the next one starts, and the last one ends at
    the sum of all durations. *)
Theorem C5_boundaries_cumulative_by_slide_number
    (audio_durations : Dict.t Q) :
  Dict.wf audio_durations →
  (Dict.keys (slide_boundaries audio_durations)
   = sorted (Dict.keys audio_durations)
   ∧ StronglySorted Z.lt (Dict.keys (slide_boundaries audio_durations)))
  ∧ (∀ reordered, reordered ≡ₚ audio_durations →
       slide_boundaries reordered = slide_boundaries audio_durations)
  ∧ (∀ n dur, Dict.get audio_durations n = Some dur →
       ∃ b, Dict.get (slide_boundaries audio_durations) n = Some b
         ∧ Bounds.start b == sum_before audio_durations n
         ∧ Bounds.end_ b = Bounds.start b + dur)
  ∧ (∀ n b, head (slide_boundaries audio_durations) = Some (n, b) →
       Bounds.start b = 0)
  ∧ (∀ i n b n' b',
       slide_boundaries audio_durations !! i = Some (n, b) →
       slide_boundaries audio_durations !! S i = Some (n', b') →
       Bounds.end_ b = Bounds.start b')
  ∧ (∀ n b, last (slide_boundaries audio_durations) = Some (n, b) →
       Bounds.end_ b == sumQ audio_durations.*2)
  ∧ (nonneg audio_durations →
     ∀ n b, Dict.get (slide_boundaries audio_durations) n = Some b →
       0 <= Bounds.start b ∧ Bounds.start b <= Bounds.end_ b).
Proof.
  intros Hwf. rewrite (slide_boundaries_cumulative _ Hwf).
  pose proof (sorted_ascending _ Hwf) as Hsorted.
  rewrite cumulative_bounds_keys. split_and!; try done.
  - intros d' Hperm.
    assert (Hwf' : Dict.wf d').
    { unfold Dict.wf, Dict.keys in *. by rewrite Hperm. }
    rewrite (slide_boundaries_cumulative _ Hwf').
    assert (Hkeys : sorted (Dict.keys d') = sorted (Dict.keys audio_durations)).
    { apply (Sorted_unique Z.le).
      - apply Sorted_merge_sort. apply _.
      - apply Sorted_merge_sort. apply _.
      - rewrite !sorted_permutation. unfold Dict.keys. by rewrite Hperm. }
    rewrite Hkeys. apply cumulative_bounds_ext. intros k.
    unfold duration_of. by rewrite (dict_get_permutation _ _ _ Hwf Hperm).
  - intros n dur Hget.
    assert (Hsome : is_Some (Dict.get
              (cumulative_bounds audio_durations
                 (sorted (Dict.keys audio_durations)) 0) n)).
    { apply dict_get_is_Some. rewrite cumulative_bounds_keys.
      rewrite sorted_permutation. apply dict_get_is_Some. by eauto. }
    destruct Hsome as [b Hb]. exists b. split; [done|].
    destruct (cumulative_bounds_get _ _ _ _ _ Hsorted Hb) as [Hstart Hend].
    split.
    + rewrite Hstart, sum_before_sorted by done. ring.
    + rewrite Hend. unfold duration_of. by rewrite Hget.
  - intros n b.
    destruct (sorted (Dict.keys audio_durations)); simpl; [done|].
    by intros [= <- <-].
  - intros i n b n' b'. apply cumulative_bounds_contiguous.
  - intros n b Hlast. rewrite (cumulative_bounds_last _ _ _ _ _ Hlast).
    rewrite (durations_by_key audio_durations audio_durations) by done.
    rewrite (sumQ_permutation
               (duration_of audio_durations
                <$> sorted (Dict.keys audio_durations))
               (duration_of audio_durations <$> audio_durations.*1)).
    + ring.
    + apply fmap_Permutation, sorted_permutation.
  - intros Hnn n b Hget. apply dict_get_elem_of in Hget.
    by apply (cumulative_bounds_range _ _ _ _ _ Hnn) in Hget.
Qed.

Lemma C5_boundaries_cumulative_by_slide_number_witness :
  Dict.keys (slide_boundaries [(3%Z, 2); (1%Z, 3); (2%Z, 4)])
  = sorted (Dict.keys [(3%Z, 2); (1%Z, 3); (2%Z, 4)])
  ∧ StronglySorted Z.lt
      (Dict.keys (slide_boundaries [(3%Z, 2); (1%Z, 3); (2%Z, 4)])).
Proof.
  apply (C5_boundaries_cumulative_by_slide_number
           [(3%Z, 2); (1%Z, 3); (2%Z, 4)]).
  unfold Dict.wf. simpl. apply (bool_decide_unpack _). vm_compute. exact I.
Defined.

(** C2, as the code has it: with no negative duration, a subtitle that
    starts exactly where the boundary of slide [n] starts is assigned to
    slide [n] whenever that slide has a positive duration. In general the
    slide chosen contains the start of the subtitle in its half-open
    interval and no slide with a smaller number does. For durations
    [5, 5] a subtitle starting at [5] lands in slide 2. *)
Theorem C2_start_of_boundary_belongs_to_slide
    (audio_durations : Dict.t Q) (n : Z) (b : Bounds.t) (sub : Sub.t) :
  Dict.wf audio_durations →
  nonneg audio_durations →
  Dict.get (slide_boundaries audio_durations) n = Some b →
  Bounds.start b < Bounds.end_ b →
  Sub.start sub == Bounds.start b →
  find_slide (slide_boundaries audio_durations) sub = Some (n, b)
  ∧ (∀ other m bm,
       find_slide (slide_boundaries audio_durations) other = Some (m, bm) →
       (Bounds.start bm <= Sub.start other
        ∧ Sub.start other < Bounds.end_ bm)
       ∧ ∀ m' bm', (m' < m)%Z →
           Dict.get (slide_boundaries audio_durations) m' = Some bm' →
           ¬ (Bounds.start bm' <= Sub.start other
              ∧ Sub.start other < Bounds.end_ bm'))
  ∧ (∀ end_ text,
       slide_of (slide_boundaries [(1%Z, 5); (2%Z, 5)])
         (Sub.mk 5 end_ text) = Some 2%Z).
Proof.
  intros Hwf Hnn Hget Hpos Hstart. split_and!.
  - rewrite (slide_boundaries_cumulative _ Hwf) in *.
    by apply find_slide_at_start.
  - intros other m bm Hfind.
    pose proof (find_slide_elem_of _ _ _ _ Hfind) as [_ Hw].
    split; [by apply within_iff|].
    intros m' bm' Hlt Hget' Hin.
    apply within_iff in Hin.
    apply find_slide_split in Hfind as (l1 & l2 & Hsplit & Hl1).
    pose proof (sorted_ascending _ Hwf) as Hsorted.
    rewrite <- (cumulative_bounds_keys audio_durations _ 0) in Hsorted.
    rewrite <- (slide_boundaries_cumulative _ Hwf) in Hsorted.
    rewrite Hsplit in Hsorted. unfold Dict.keys in Hsorted.
    rewrite fmap_app, fmap_cons in Hsorted. cbn [fst] in Hsorted.
    apply StronglySorted_app_1_r in Hsorted.
    apply StronglySorted_cons in Hsorted as [Hafter _].
    apply dict_get_elem_of in Hget'. rewrite Hsplit in Hget'.
    apply elem_of_app in Hget' as [Hin1|Hin2].
    + rewrite Forall_forall in Hl1. specialize (Hl1 _ Hin1). simpl in Hl1.
      congruence.
    + apply elem_of_cons in Hin2 as [[= -> ->]|Hin2]; [lia|].
      rewrite Forall_forall in Hafter.
      assert (m < m')%Z; [|lia].
      apply Hafter. apply list_elem_of_fmap. by exists (m', bm').
  - intros end_ text. reflexivity.
Qed.

Lemma C2_start_of_boundary_belongs_to_slide_witness :
  find_slide (slide_boundaries [(1%Z, 5); (2%Z, 5)])
    (Sub.mk 5 6 (lit "x"))
  = Some (2%Z, Bounds.mk 5 (5 + 5)).
Proof.
  refine (proj1 (C2_start_of_boundary_belongs_to_slide
                   [(1%Z, 5); (2%Z, 5)] 2 (Bounds.mk 5 (5 + 5))
                   (Sub.mk 5 6 (lit "x")) _ _ _ _ _)).
  - unfold Dict.wf. simpl. apply (bool_decide_unpack _). vm_compute. exact I.
  - repeat constructor; vm_compute; discriminate.
  - reflexivity.
  - vm_compute. reflexivity.
  - vm_compute. reflexivity.
Defined.

(** The claim C2 as stated fails when slide [n] has duration [0]: with
    durations [5, 0, 5] the boundary of slide 2 starts at [5], and a
    subtitle starting at [5] goes to slide 3. *)
Lemma C2_counterexample :
  ¬ (∀ audio_durations n b sub,
       Dict.wf audio_durations →
       nonneg audio_durations →
       Dict.get (slide_boundaries audio_durations) n = Some b →
       Sub.start sub == Bounds.start b →
       slide_of (slide_boundaries audio_durations) sub = Some n).
Proof.
  intros Hclaim.
  assert (Hwf : Dict.wf [(1%Z, 5); (2%Z, 0); (3%Z, 5)]).
  { unfold Dict.wf. simpl. apply (bool_decide_unpack _). vm_compute. exact I. }
  assert (Hnn : nonneg [(1%Z, 5); (2%Z, 0); (3%Z, 5)]).
  { repeat constructor; vm_compute; discriminate. }
  specialize (Hclaim [(1%Z, 5); (2%Z, 0); (3%Z, 5)] 2%Z
                (Bounds.mk (0 + 5) (0 + 5 + 0)) (Sub.mk 5 6 (lit "x"))
                Hwf Hnn eq_refl eq_refl).
  vm_compute in Hclaim. discriminate.
Qed.

Lemma assign_unmatched boundaries subtitles_by_slide sub :
  find_slide boundaries sub = None →
  assign boundaries subtitles_by_slide sub = subtitles_by_slide.
Proof. intros H. unfold assign. by rewrite H. Qed.

(** C3: with no negative duration, a subtitle that starts at or after the
    end of the last boundary matches no slide, and the output is the one
    obtained without that subtitle: it is dropped, and nothing fails. *)
Theorem C3_late_subtitle_dropped
    (audio_durations : Dict.t Q) (n : Z) (b : Bounds.t) (sub : Sub.t) :
  Dict.wf audio_durations →
  nonneg audio_durations →
  last (slide_boundaries audio_durations) = Some (n, b) →
  Bounds.end_ b <= Sub.start sub →
  find_slide (slide_boundaries audio_durations) sub = None
  ∧ (∀ m, segment_for (slide_boundaries audio_durations) m sub = None)
  ∧ (∀ before after,
       rebin audio_durations (before ++ sub :: after)
       = rebin audio_durations (before ++ after)).
Proof.
  intros Hwf Hnn Hlast Hlate.
  assert (Hnone : find_slide (slide_boundaries audio_durations) sub = None).
  { apply find_slide_None. apply Forall_forall. intros [k bk] Hin. simpl.
    apply within_false.
    rewrite (slide_boundaries_cumulative _ Hwf) in *.
    pose proof (cumulative_bounds_end_le_last _ _ _ _ _ _ _ Hnn Hin Hlast).
    lra. }
  split_and!; [done | |].
  - intros m. unfold segment_for. by rewrite Hnone.
  - intros before after. unfold rebin.
    rewrite !fold_left_app. simpl. by rewrite assign_unmatched.
Qed.

Lemma C3_late_subtitle_dropped_witness :
  find_slide (slide_boundaries [(1%Z, 5); (2%Z, 5)])
    (Sub.mk 11 12 (lit "late")) = None.
Proof.
  refine (proj1 (C3_late_subtitle_dropped
                   [(1%Z, 5); (2%Z, 5)] 2 (Bounds.mk 5 (5 + 5))
                   (Sub.mk 11 12 (lit "late")) _ _ _ _)).
  - unfold Dict.wf. simpl. apply (bool_decide_unpack _). vm_compute. exact I.
  - repeat constructor; vm_compute; discriminate.
  - reflexivity.
  - vm_compute. discriminate.
Defined.


(** * Further properties of the code *)

(** ** Stripping *)

Lemma lstrip_head s c : head (lstrip s) = Some c → isspace c = false.
Proof.
  induction s as [|c0 rest IH]; simpl; [done|].
  destruct (isspace c0) eqn:E; [done|]. simpl. by intros [= <-].
Qed.

Lemma lstrip_fixed s :
  (∀ c, head s = Some c → isspace c = false) → lstrip s = s.
Proof.
  destruct s as [|c rest]; simpl; [done|]. intros H.
  by rewrite (H c eq_refl).
Qed.

Lemma lstrip_suffix s :
  ∃ l, s = l ++ lstrip s ∧ Forall (λ c, isspace c = true) l.
Proof.
  induction s as [|c rest IH]; simpl.
  - by exists [].
  - destruct (isspace c) eqn:E.
    + destruct IH as (l & Hl & Hsp). exists (c :: l). split.
      * simpl. by rewrite <- Hl.
      * by constructor.
    + by exists [].
Qed.

Lemma lstrip_last s c : last (lstrip s) = Some c → last s = Some c.
Proof.
  destruct (lstrip_suffix s) as (l & Hl & _). intros Hlast.
  rewrite Hl. destruct (lstrip s) as [|x xs] eqn:E; [done|].
  by rewrite last_app_cons.
Qed.

Lemma rstrip_last s c : last (rstrip s) = Some c → isspace c = false.
Proof.
  unfold rstrip. rewrite last_reverse. apply lstrip_head.
Qed.

Lemma rstrip_head s c : head (rstrip s) = Some c → head s = Some c.
Proof.
  unfold rstrip. rewrite head_reverse. intros H.
  apply lstrip_last in H. by rewrite last_reverse in H.
Qed.

Lemma rstrip_fixed s :
  (∀ c, last s = Some c → isspace c = false) → rstrip s = s.
Proof.
  intros H. unfold rstrip. rewrite lstrip_fixed.
  - apply reverse_involutive.
  - intros c. rewrite head_reverse. apply H.
Qed.

Lemma strip_trimmed s : trimmed (strip s).
Proof.
  unfold strip. split; intros c H.
  - apply rstrip_head in H. by apply lstrip_head in H.
  - by apply rstrip_last in H.
Qed.

Lemma strip_fixed s : trimmed s → strip s = s.
Proof.
  intros [Hhead Hlast]. unfold strip.
  rewrite (lstrip_fixed _ Hhead). by apply rstrip_fixed.
Qed.

Lemma strip_idemp s : strip (strip s) = strip s.
Proof. apply strip_fixed, strip_trimmed. Qed.

Lemma visible_cons_space c s :
  isspace c = true → visible (c :: s) = visible s.
Proof.
  intros Hsp. unfold visible. rewrite filter_cons_False; [done|].
  by rewrite Hsp.
Qed.

Lemma visible_lstrip s : visible (lstrip s) = visible s.
Proof.
  induction s as [|c rest IH]; [done|]. cbn [lstrip].
  destruct (isspace c) eqn:E; [|done].
  by rewrite visible_cons_space.
Qed.

Lemma visible_strip s : visible (strip s) = visible s.
Proof.
  unfold strip, rstrip.
  assert (Hrev : ∀ x, visible (reverse x) = reverse (visible x))
    by (intros x; apply filter_reverse).
  by rewrite Hrev, visible_lstrip, Hrev, reverse_involutive, visible_lstrip.
Qed.

Lemma visible_app s1 s2 : visible (s1 ++ s2) = visible s1 ++ visible s2.
Proof. apply filter_app. Qed.

(** ** Sentences *)

Lemma split_into_sentences_elem tok text sentence :
  sentence ∈ split_into_sentences tok text →
  sentence ≠ [] ∧ trimmed sentence ∧ strip sentence = sentence.
Proof.
  unfold split_into_sentences. intros Hin.
  apply list_elem_of_filter in Hin as [Htruthy Hin].
  apply list_elem_of_fmap in Hin as (raw & -> & _).
  split_and!.
  - by destruct (strip raw).
  - apply strip_trimmed.
  - apply strip_idemp.
Qed.

(** Every sentence handed to the allocator is non-empty and carries no
    white space at either end, whatever the tokenizer returned. *)
Theorem sentences_nonempty_trimmed
    (sent_tokenize : str → option (list str)) (text sentence : str) :
  sentence ∈ split_into_sentences sent_tokenize text →
  sentence ≠ [] ∧ trimmed sentence ∧ strip sentence = sentence.
Proof. apply split_into_sentences_elem. Qed.

Lemma sentences_nonempty_trimmed_witness :
  lit "Two!" ≠ [] ∧ trimmed (lit "Two!") ∧ strip (lit "Two!") = lit "Two!".
Proof.
  apply (sentences_nonempty_trimmed (λ _, None) (lit "One.  Two! ")).
  vm_compute. right. left.
Defined.

Lemma re_split_go_visible m cur s :
  visible (concat (re_split_go m cur s)) = visible (reverse cur ++ s).
Proof.
  revert m cur. induction s as [|c rest IH]; intros m cur.
  - simpl. by rewrite !app_nil_r.
  - assert (Hkeep : ∀ m', visible (concat (re_split_go m' (c :: cur) rest))
                          = visible (reverse cur ++ c :: rest)).
    { intros m'. rewrite IH, reverse_cons, <- app_assoc. done. }
    assert (Hdrop : isspace c = true →
                    visible (reverse cur ++ c :: rest)
                    = visible (reverse cur ++ rest)).
    { intros Hsp. rewrite !visible_app. f_equal.
      by apply visible_cons_space. }
    destruct m as [p|]; simpl.
    + destruct (p && isspace c) eqn:E; [|apply Hkeep].
      apply andb_true_iff in E as [_ Hsp].
      rewrite Hdrop by done. simpl. rewrite visible_app, IH.
      change (reverse [] ++ rest) with rest. by rewrite visible_app.
    + destruct (isspace c) eqn:Hsp; [|apply Hkeep].
      rewrite Hdrop by done. apply IH.
Qed.

Lemma visible_kept_sentences (pieces : list str) :
  visible (concat (filter (λ s, truthy s = true) (strip <$> pieces)))
  = visible (concat pieces).
Proof.
  induction pieces as [|x rest IH]; [done|].
  rewrite fmap_cons, filter_cons. simpl.
  rewrite visible_app, <- IH, <- (visible_strip x).
  destruct (decide (truthy (strip x) = true)) as [|Hempty].
  - simpl. by rewrite visible_app.
  - destruct (strip x); [done | by destruct Hempty].
Qed.

(** When the tokenizer fails, the sentences of the regular-expression
    split carry every character of the text that is not white space, in
    the order of the text: only white space is lost. *)
Theorem fallback_split_keeps_visible_text (text : str) :
  visible (concat (split_into_sentences (λ _, None) text)) = visible text.
Proof.
  unfold split_into_sentences. rewrite visible_kept_sentences.
  unfold re_split_sentences. by rewrite re_split_go_visible.
Qed.

(** The cleaned text has no white space at either end, so it is blank
    only when it is empty: the blank-text guards of the generator skip
    exactly the slides whose narration text is the empty string. *)
Theorem clean_for_tts_trimmed (rewrite_passes : str → str) :
  (∀ text,
     strip (clean_for_tts rewrite_passes text)
     = clean_for_tts rewrite_passes text)
  ∧ (∀ data slide,
       slide ∈ load_slides_content rewrite_passes data →
       narrated slide = truthy (SlideContent.narration_text slide)).
Proof.
  assert (Hclean : ∀ text,
     strip (clean_for_tts rewrite_passes text)
     = clean_for_tts rewrite_passes text).
  { intros text. apply strip_fixed. unfold clean_for_tts, last_char.
    destruct (truthy text); simpl; [|done].
    pose proof (strip_trimmed (rewrite_passes text)) as [Hhead Hlast].
    destruct (last (strip (rewrite_passes text))) as [c0|] eqn:El.
    - destruct (is_terminal c0); simpl; [apply strip_trimmed|].
      change (lit ".") with [46%N]. split; intros c Hc.
      + apply Hhead. destruct (strip (rewrite_passes text)); [done|].
        done.
      + rewrite last_snoc in Hc. by simplify_eq.
    - apply strip_trimmed. }
  split; [done|].
  intros data slide Hin. unfold load_slides_content in Hin.
  apply list_elem_of_lookup in Hin as [i Hi].
  rewrite list_lookup_imap in Hi.
  destruct (data !! i) as [s|]; simplify_eq/=.
  unfold narrated. simpl. by rewrite Hclean.
Qed.

(** ** The two generator scripts *)

Lemma slide_subtitles_alike tok slide :
  Forall2 same_text_and_start
    (LectureGenerator.slide_subtitles tok slide)
    (LectureGen.slide_subtitles tok slide).
Proof.
  unfold LectureGenerator.slide_subtitles, LectureGen.slide_subtitles.
  destruct (_ || _); [constructor|].
  set (sentences := split_into_sentences tok
                      (SlideContent.narration_text slide)).
  apply Forall2_same_length_lookup_2.
  - by rewrite generator_allocate_length, gen_allocate_length.
  - intros i a b Ha Hb.
    apply generator_allocate_lookup in Ha as (sent & Hs & ->).
    apply gen_allocate_lookup in Hb as (sent' & Hs' & ->).
    assert (sent' = sent) as -> by congruence.
    assert (Hin : sent ∈ sentences) by (by eapply list_elem_of_lookup_2).
    apply split_into_sentences_elem in Hin as (_ & _ & Hstrip).
    unfold same_text_and_start. simpl. by rewrite Hstrip.
Qed.

(** The two generator scripts give every deck the same number of
    subtitles, with the same texts in the same order and the same start
    times, computed by the same operations; only the way the end time is
    computed differs between them. *)
Theorem generator_scripts_agree_on_text_and_start
    (sent_tokenize : str → option (list str))
    (slides : list SlideContent.t) :
  Forall2 same_text_and_start
    (LectureGenerator.generate_subtitles sent_tokenize slides)
    (LectureGen.generate_subtitles sent_tokenize slides).
Proof.
  rewrite generator_subtitles_concat, gen_subtitles_concat.
  induction slides as [|slide rest IH]; [constructor|].
  rewrite !fmap_cons. simpl. apply Forall2_app; [|done].
  apply slide_subtitles_alike.
Qed.

(** ** One run of the synthesis *)

Lemma audio_loop_frame synthesize slides :
  ∀ cumulative slides' audio_files,
    audio_loop synthesize slides cumulative = Some (slides', audio_files) →
    SlideContent.slide_number <$> slides'
    = SlideContent.slide_number <$> slides
    ∧ SlideContent.image_path <$> slides'
      = SlideContent.image_path <$> slides
    ∧ SlideContent.narration_text <$> slides'
      = SlideContent.narration_text <$> slides
    ∧ audio_files
      = SlideContent.slide_number
        <$> filter (λ slide, narrated slide = true) slides
    ∧ Forall2 (λ slide slide',
                 if narrated slide
                 then synthesize slide
                      = Some (SlideContent.duration slide')
                 else slide' = slide)
        slides slides'.
Proof.
  induction slides as [|s rest IH]; intros c slides' files Hloop.
  - simplify_eq/=. by split_and!.
  - simpl in Hloop.
    destruct (truthy (strip (SlideContent.narration_text s))) eqn:Htext;
      simpl in Hloop.
    + destruct (synthesize s) as [d|] eqn:Hd; simpl in Hloop; [|done].
      destruct (audio_loop synthesize rest (c + d)) as [[rest' fs]|] eqn:Hrec;
        simpl in Hloop; [|done].
      injection Hloop as <- <-.
      destruct (IH _ _ _ Hrec) as (H1 & H2 & H3 & H4 & H5).
      rewrite filter_cons_True by done.
      rewrite !fmap_cons. cbn [SlideContent.slide_number
        SlideContent.image_path SlideContent.narration_text].
      rewrite H1, H2, H3, H4.
      split_and!; try done.
      constructor; [|done]. unfold narrated. by rewrite Htext.
    + destruct (audio_loop synthesize rest c) as [[rest' fs]|] eqn:Hrec;
        simpl in Hloop; [|done].
      injection Hloop as <- <-.
      destruct (IH _ _ _ Hrec) as (H1 & H2 & H3 & H4 & H5).
      rewrite filter_cons_False by (unfold narrated; by rewrite Htext).
      rewrite !fmap_cons. rewrite H1, H2, H3.
      split_and!; try done.
      constructor; [|done]. unfold narrated. by rewrite Htext.
Qed.

(** A completed run of [generate_audio_segments] changes nothing but the
    two times of the narrated slides: numbers, images and texts are kept,
    a slide with a blank narration is left untouched, a narrated slide
    gets the duration the synthesis measured, and one audio file is
    written per narrated slide, in slide order. *)
Theorem audio_run_frame
    (synthesize : SlideContent.t → option Q)
    (slides slides' : list SlideContent.t) (audio_files : list Z) :
  generate_audio_segments synthesize slides = Some (slides', audio_files) →
  SlideContent.slide_number <$> slides'
  = SlideContent.slide_number <$> slides
  ∧ SlideContent.image_path <$> slides'
    = SlideContent.image_path <$> slides
  ∧ SlideContent.narration_text <$> slides'
    = SlideContent.narration_text <$> slides
  ∧ audio_files
    = SlideContent.slide_number
      <$> filter (λ slide, narrated slide = true) slides
  ∧ Forall2 (λ slide slide',
               if narrated slide
               then synthesize slide = Some (SlideContent.duration slide')
               else slide' = slide)
      slides slides'.
Proof. apply audio_loop_frame. Qed.

Lemma audio_run_frame_witness :
  [1%Z; 3%Z]
  = SlideContent.slide_number
    <$> filter (λ slide, narrated slide = true)
          (load_slides_content (λ text, text) deck_with_gap).
Proof.
  exact (proj1 (proj2 (proj2 (proj2
           (audio_run_frame (λ _, Some 2)
              (load_slides_content (λ text, text) deck_with_gap)
              deck_with_gap_sequenced [1%Z; 3%Z] eq_refl))))).
Defined.

Lemma audio_loop_fails synthesize slides cumulative :
  audio_loop synthesize slides cumulative = None
  ↔ ∃ slide, slide ∈ slides ∧ narrated slide = true
      ∧ synthesize slide = None.
Proof.
  revert cumulative. induction slides as [|s rest IH]; intros c; simpl.
  - split; [done|]. intros (slide & Hin & _). by apply elem_of_nil in Hin.
  - unfold narrated in *.
    destruct (truthy (strip (SlideContent.narration_text s))) eqn:Htext;
      simpl.
    + destruct (synthesize s) as [d|] eqn:Hd; simpl.
      * destruct (audio_loop synthesize rest (c + d)) as [[rest' fs]|] eqn:Hrec;
          simpl.
        -- split; [done|]. intros (slide & Hin & Hn & Hnone).
           apply elem_of_cons in Hin as [->|Hin]; [congruence|].
           assert (audio_loop synthesize rest (c + d) = None)
             by (apply IH; eauto).
           congruence.
        -- split; [|done]. intros _. apply IH in Hrec as (slide & ? & ? & ?).
           exists slide. split_and!; [by right | done | done].
      * split; [|done]. intros _. exists s. split_and!; [left | done | done].
    + destruct (audio_loop synthesize rest c) as [[rest' fs]|] eqn:Hrec;
        simpl.
      * split; [done|]. intros (slide & Hin & Hn & Hnone).
        apply elem_of_cons in Hin as [->|Hin]; [congruence|].
        assert (audio_loop synthesize rest c = None) by (apply IH; eauto).
        congruence.
      * split; [|done]. intros _. apply IH in Hrec as (slide & ? & ? & ?).
        exists slide. split_and!; [by right | done | done].
Qed.

(** The run is aborted exactly when the synthesis fails on some slide
    with a non-blank narration; the slides with a blank narration are
    never handed to the synthesis. *)
Theorem audio_run_aborts_iff_synthesis_fails
    (synthesize : SlideContent.t → option Q)
    (slides : list SlideContent.t) :
  generate_audio_segments synthesize slides = None
  ↔ ∃ slide, slide ∈ slides ∧ narrated slide = true
      ∧ synthesize slide = None.
Proof. apply audio_loop_fails. Qed.

Lemma audio_loop_ext synthesize synthesize' slides cumulative :
  (∀ slide, narrated slide = true → synthesize slide = synthesize' slide) →
  audio_loop synthesize slides cumulative
  = audio_loop synthesize' slides cumulative.
Proof.
  intros Hext. revert cumulative.
  induction slides as [|s rest IH]; intros c; simpl; [done|].
  destruct (truthy (strip (SlideContent.narration_text s))) eqn:Htext;
    simpl.
  - rewrite (Hext s Htext). destruct (synthesize' s); simpl; [|done].
    by rewrite IH.
  - by rewrite IH.
Qed.

(** The guard of [tts_to_wav] against an empty text never fires inside
    [generate_audio_segments]: the run is the same with and without it. *)
Theorem tts_guard_never_fires
    (speak : str → Z → option Q) (slides : list SlideContent.t) :
  generate_audio_segments (tts_to_wav speak) slides
  = generate_audio_segments (speak_slide speak) slides.
Proof.
  apply audio_loop_ext. intros slide Hn.
  unfold tts_to_wav, speak_slide. unfold narrated in Hn. by rewrite Hn.
Qed.

(** ** The whole run *)

Lemma load_slides_content_nil rewrite_passes data :
  load_slides_content rewrite_passes data = [] ↔ data = [].
Proof.
  split; [|by intros ->]. intros H.
  apply (f_equal length) in H. unfold load_slides_content in H.
  rewrite length_imap in H. by destruct data.
Qed.

Lemma no_audio_iff_none_narrated (slides : list SlideContent.t) :
  SlideContent.slide_number
  <$> filter (λ slide, narrated slide = true) slides = []
  ↔ Forall (λ slide, narrated slide = false) slides.
Proof.
  induction slides as [|s rest IH].
  - split; [constructor | done].
  - rewrite filter_cons, Forall_cons.
    destruct (decide (narrated s = true)) as [Hn|Hn].
    + rewrite fmap_cons. split; [done|]. intros [? _]. congruence.
    + rewrite IH. apply not_true_is_false in Hn. tauto.
Qed.

(** [generate_lecture] fails with "no slides" exactly on an empty deck,
    with "no audio" exactly on a non-empty deck in which every narration
    is blank (whatever the synthesis would do), and is aborted exactly
    when the synthesis fails on a slide with a non-blank narration. *)
Theorem generate_lecture_failures
    (rewrite_passes : str → str)
    (synthesize : SlideContent.t → option Q)
    (sent_tokenize : str → option (list str))
    (data : list SlideData.t) :
  (generate_lecture rewrite_passes synthesize sent_tokenize data
   = inl NoSlides ↔ data = [])
  ∧ (generate_lecture rewrite_passes synthesize sent_tokenize data
     = inl NoAudio
     ↔ data ≠ []
       ∧ Forall (λ slide, narrated slide = false)
           (load_slides_content rewrite_passes data))
  ∧ (generate_lecture rewrite_passes synthesize sent_tokenize data
     = inl SynthesisFailed
     ↔ ∃ slide, slide ∈ load_slides_content rewrite_passes data
         ∧ narrated slide = true ∧ synthesize slide = None).
Proof.
  unfold generate_lecture.
  pose proof (load_slides_content_nil rewrite_passes data) as Hnil.
  destruct (load_slides_content rewrite_passes data) as [|s0 rest] eqn:Hload.
  - assert (data = []) as -> by by apply Hnil.
    split_and!; split; try done.
    + by intros [? _].
    + intros (slide & Hin & _). by apply elem_of_nil in Hin.
  - assert (Hdata : data ≠ []) by (intros ->; by destruct Hnil as [_ ?]).
    pose proof (audio_loop_fails synthesize (s0 :: rest) 0) as Habort.
    fold (generate_audio_segments synthesize (s0 :: rest)) in Habort.
    destruct (generate_audio_segments synthesize (s0 :: rest))
      as [[slides' files]|] eqn:Hgen.
    + apply audio_loop_frame in Hgen as (_ & _ & _ & Hfiles & _).
      pose proof (no_audio_iff_none_narrated (s0 :: rest)) as Hnone.
      rewrite <- Hfiles in Hnone.
      destruct files as [|f fs].
      * split_and!; split; try done.
        -- intros _. split; [done|]. by apply Hnone.
        -- intros Hex. by apply Habort in Hex.
      * split_and!; split; try done.
        -- intros [_ Hall]. by apply Hnone in Hall.
        -- intros Hex. by apply Habort in Hex.
    + split_and!; split; try done.
      * intros [_ Hall]. destruct Habort as [Hex _].
        destruct (Hex eq_refl) as (slide & Hin & Hn & _).
        rewrite Forall_forall in Hall. specialize (Hall _ Hin). congruence.
      * intros _. by apply Habort.
Qed.

Lemma timeline_from_weaken lo lo' segs :
  lo' <= lo → timeline_from lo segs → timeline_from lo' segs.
Proof.
  destruct segs as [|seg rest]; simpl; [done|].
  intros Hle (H1 & H2 & H3). split_and!; [lra | done | done].
Qed.

Lemma timeline_from_app lo hi segs1 segs2 :
  lo <= hi →
  timeline_from lo segs1 →
  Forall (λ seg, SubtitleSegment.end_time seg <= hi) segs1 →
  timeline_from hi segs2 →
  timeline_from lo (segs1 ++ segs2).
Proof.
  revert lo. induction segs1 as [|seg rest IH]; intros lo Hle H1 Hends H2.
  - simpl. by apply (timeline_from_weaken hi).
  - simpl in *. destruct H1 as (Ha & Hb & Hc).
    apply Forall_cons in Hends as [He Hends].
    split_and!; [done | done |]. by apply IH.
Qed.

Lemma timeline_from_slices w lo segs :
  0 <= w →
  (∀ i seg, segs !! i = Some seg →
     SubtitleSegment.start_time seg == lo + of_nat i * w
     ∧ SubtitleSegment.end_time seg == lo + of_nat (S i) * w) →
  timeline_from lo segs.
Proof.
  intros Hw. revert lo. induction segs as [|seg rest IH]; intros lo H; [done|].
  destruct (H 0%nat seg eq_refl) as [Hs He].
  change (of_nat 0) with 0 in Hs. change (of_nat 1) with 1 in He.
  simpl. split_and!; [lra | lra |].
  apply IH. intros i seg' Hi.
  destruct (H (S i) seg' Hi) as [Hs' He']. rewrite !of_nat_S in *.
  split; lra.
Qed.

Lemma equal_slices_timeline start total n segs :
  (0 < n)%nat → 0 <= total →
  equal_slices start total n segs →
  timeline_from start segs
  ∧ Forall (λ seg, SubtitleSegment.end_time seg <= start + total) segs.
Proof.
  intros Hn Htotal (Hlen & Hat & _ & _).
  pose proof (of_nat_pos n Hn) as Hpos.
  assert (Hw : 0 <= total / of_nat n).
  { apply Qle_shift_div_l; [done|]. lra. }
  split.
  - apply (timeline_from_slices (total / of_nat n)); [done|].
    intros i seg Hi. destruct (Hat i seg Hi) as (Hs & He & _). split; lra.
  - apply Forall_forall. intros seg Hin.
    apply list_elem_of_lookup in Hin as [i Hi].
    destruct (Hat i seg Hi) as (_ & He & _).
    assert (Hi' : (S i <= n)%nat).
    { apply lookup_lt_Some in Hi. lia. }
    assert (Hle : of_nat (S i) <= of_nat n).
    { unfold of_nat. rewrite <- Zle_Qle. lia. }
    assert (Hmul : of_nat (S i) * (total / of_nat n)
                   <= of_nat n * (total / of_nat n)).
    { by apply Qmult_le_compat_r. }
    assert (Hn' : of_nat n * (total / of_nat n) == total).
    { field. intros Hz. rewrite Hz in Hpos. by apply Qlt_irrefl in Hpos. }
    lra.
Qed.

Lemma slide_subtitles_timeline tok slide :
  0 <= SlideContent.duration slide →
  (timeline_from (SlideContent.start_time slide)
     (LectureGenerator.slide_subtitles tok slide)
   ∧ Forall (λ seg, SubtitleSegment.end_time seg
                    <= SlideContent.start_time slide
                       + SlideContent.duration slide)
       (LectureGenerator.slide_subtitles tok slide))
  ∧ (timeline_from (SlideContent.start_time slide)
       (LectureGen.slide_subtitles tok slide)
     ∧ Forall (λ seg, SubtitleSegment.end_time seg
                      <= SlideContent.start_time slide
                         + SlideContent.duration slide)
         (LectureGen.slide_subtitles tok slide)).
Proof.
  intros Hdur.
  unfold LectureGenerator.slide_subtitles, LectureGen.slide_subtitles.
  destruct (_ || _); [by repeat split|].
  destruct (split_into_sentences tok (SlideContent.narration_text slide))
    as [|s0 rest] eqn:Hs; [by repeat split|].
  rewrite <- Hs.
  assert (Hne : split_into_sentences tok (SlideContent.narration_text slide)
                ≠ []) by (by rewrite Hs).
  assert (Hn : (0 < length (split_into_sentences tok
                              (SlideContent.narration_text slide)))%nat)
    by (rewrite Hs; simpl; lia).
  split.
  - apply (equal_slices_timeline _ _ _ _ Hn Hdur).
    by apply generator_allocate_equal_slices.
  - apply (equal_slices_timeline _ _ _ _ Hn Hdur).
    by apply gen_allocate_equal_slices.
Qed.

Lemma audio_loop_timeline synthesize tok slides :
  (∀ slide d, synthesize slide = Some d → 0 <= d) →
  ∀ cumulative slides' audio_files,
    audio_loop synthesize slides cumulative = Some (slides', audio_files) →
    timeline_from cumulative
      (concat (LectureGenerator.slide_subtitles tok <$> slides'))
    ∧ timeline_from cumulative
        (concat (LectureGen.slide_subtitles tok <$> slides')).
Proof.
  intros Hpos. induction slides as [|s rest IH];
    intros c slides' files Hloop.
  - by simplify_eq/=.
  - simpl in Hloop.
    destruct (truthy (strip (SlideContent.narration_text s))) eqn:Htext;
      simpl in Hloop.
    + destruct (synthesize s) as [d|] eqn:Hd; simpl in Hloop; [|done].
      destruct (audio_loop synthesize rest (c + d)) as [[rest' fs]|] eqn:Hrec;
        simpl in Hloop; [|done].
      injection Hloop as <- <-.
      destruct (IH _ _ _ Hrec) as [IH1 IH2].
      pose proof (Hpos _ _ Hd) as Hd0.
      set (s' := SlideContent.mk (SlideContent.slide_number s)
                   (SlideContent.image_path s)
                   (SlideContent.narration_text s) d c).
      destruct (slide_subtitles_timeline tok s' Hd0)
        as [[Ha1 Ha2] [Hb1 Hb2]].
      rewrite !fmap_cons. simpl.
      split; apply (timeline_from_app c (c + d)); try done; lra.
    + destruct (audio_loop synthesize rest c) as [[rest' fs]|] eqn:Hrec;
        simpl in Hloop; [|done].
      injection Hloop as <- <-.
      destruct (IH _ _ _ Hrec) as [IH1 IH2].
      rewrite !fmap_cons. simpl.
      unfold LectureGenerator.slide_subtitles at 1.
      unfold LectureGen.slide_subtitles at 1.
      rewrite Htext. simpl. done.
Qed.

Lemma starts_from_weaken lo lo' segs :
  lo' <= lo → starts_from lo segs → starts_from lo' segs.
Proof.
  destruct segs as [|seg rest]; simpl; [done|].
  intros Hle (H1 & H2 & H3). split_and!; [lra | done | done].
Qed.

Lemma timeline_starts_from lo segs :
  timeline_from lo segs → starts_from lo segs.
Proof.
  revert lo. induction segs as [|seg rest IH]; intros lo; simpl; [done|].
  intros (H1 & H2 & H3). split_and!; [done | done |].
  apply (starts_from_weaken (SubtitleSegment.end_time seg)); [done|].
  by apply IH.
Qed.

(** When no measured duration is negative, the subtitles generated after
    a completed synthesis run start in time order from [0] on, across the
    slides, and every subtitle ends no earlier than it starts; in both
    scripts. *)
Theorem generated_subtitles_start_in_order
    (synthesize : SlideContent.t → option Q)
    (sent_tokenize : str → option (list str))
    (slides slides' : list SlideContent.t) (audio_files : list Z) :
  (∀ slide d, synthesize slide = Some d → 0 <= d) →
  generate_audio_segments synthesize slides = Some (slides', audio_files) →
  starts_from 0 (LectureGenerator.generate_subtitles sent_tokenize slides')
  ∧ starts_from 0 (LectureGen.generate_subtitles sent_tokenize slides').
Proof.
  intros Hpos Hgen.
  rewrite generator_subtitles_concat, gen_subtitles_concat.
  destruct (audio_loop_timeline synthesize sent_tokenize slides Hpos
              0 slides' audio_files Hgen) as [H1 H2].
  split; by apply timeline_starts_from.
Qed.

Lemma generated_subtitles_start_in_order_witness :
  starts_from 0
    (LectureGenerator.generate_subtitles (λ _, None) deck_with_gap_sequenced)
  ∧ starts_from 0
      (LectureGen.generate_subtitles (λ _, None) deck_with_gap_sequenced).
Proof.
  apply (generated_subtitles_start_in_order (λ _, Some 2) (λ _, None)
           (load_slides_content (λ text, text) deck_with_gap)
           deck_with_gap_sequenced [1%Z; 3%Z]).
  - intros slide d [= <-]. vm_compute. discriminate.
  - reflexivity.
Defined.

(** ** More on the re-binner *)

Lemma segments_of_rebin audio_durations (all_subtitles : list Sub.t) n :
  segments_of (rebin audio_durations all_subtitles) n
  = omap (segment_for (slide_boundaries audio_durations) n) all_subtitles.
Proof.
  unfold segments_of. rewrite get_rebin.
  by destruct (omap _ all_subtitles).
Qed.

Lemma cumulative_bounds_below_total audio_durations keys c k b :
  nonneg audio_durations →
  (k, b) ∈ cumulative_bounds audio_durations keys c →
  Bounds.end_ b <= c + sumQ (duration_of audio_durations <$> keys).
Proof.
  intros Hnn. revert c. induction keys as [|k0 rest IH]; intros c Hin.
  - by apply elem_of_nil in Hin.
  - pose proof (duration_of_nonneg _ k0 Hnn) as H0.
    assert (Hrest : 0 <= sumQ (duration_of audio_durations <$> rest)).
    { clear -Hnn. induction rest as [|k1 r IHr]; [apply Qle_refl|].
      rewrite fmap_cons, sumQ_cons.
      pose proof (duration_of_nonneg _ k1 Hnn). lra. }
    rewrite fmap_cons, sumQ_cons.
    simpl in Hin. apply elem_of_cons in Hin as [[= -> ->]|Hin].
    + cbn [Bounds.end_]. lra.
    + specialize (IH _ Hin). lra.
Qed.

Lemma find_slide_inside audio_durations keys c sub :
  c <= Sub.start sub →
  Sub.start sub < c + sumQ (duration_of audio_durations <$> keys) →
  is_Some (find_slide (cumulative_bounds audio_durations keys c) sub).
Proof.
  revert c. induction keys as [|k rest IH]; intros c Hlo Hhi.
  - change (sumQ (duration_of audio_durations <$> [])) with 0 in Hhi. lra.
  - rewrite fmap_cons, sumQ_cons in Hhi. simpl.
    destruct (within _ sub) eqn:E; [by eauto|].
    apply IH; [|lra].
    apply Qnot_lt_le. intros Hlt. rewrite <- not_true_iff_false in E.
    apply E, within_iff. by cbn [Bounds.start Bounds.end_].
Qed.

Lemma sum_durations_sorted audio_durations :
  Dict.wf audio_durations →
  sumQ (duration_of audio_durations <$> sorted (Dict.keys audio_durations))
  == sumQ audio_durations.*2.
Proof.
  intros Hwf.
  rewrite (durations_by_key audio_durations audio_durations) by done.
  apply sumQ_permutation, fmap_Permutation, sorted_permutation.
Qed.

(** With no negative duration, a subtitle is dropped exactly when it
    starts before [0] or at or after the sum of all durations: nothing
    that starts inside the audio is lost. *)
Theorem dropped_iff_outside_audio
    (audio_durations : Dict.t Q) (sub : Sub.t) :
  Dict.wf audio_durations →
  nonneg audio_durations →
  slide_of (slide_boundaries audio_durations) sub = None
  ↔ Sub.start sub < 0 ∨ sumQ audio_durations.*2 <= Sub.start sub.
Proof.
  intros Hwf Hnn. rewrite (slide_boundaries_cumulative _ Hwf).
  rewrite <- (sum_durations_sorted _ Hwf).
  set (keys := sorted (Dict.keys audio_durations)).
  unfold slide_of. split.
  - intros Hnone.
    destruct (Qlt_le_dec (Sub.start sub) 0) as [|Hlo]; [by left|].
    destruct (Qlt_le_dec (Sub.start sub)
                (sumQ (duration_of audio_durations <$> keys)))
      as [Hhi|]; [|by right].
    destruct (find_slide_inside audio_durations keys 0 sub) as [x Hx];
      [done | lra |].
    rewrite Hx in Hnone. done.
  - intros Hout.
    destruct (find_slide _ sub) as [[k b]|] eqn:E; [|done]. exfalso.
    apply find_slide_elem_of in E as [Hin Hw].
    apply within_iff in Hw as [Hw1 Hw2].
    pose proof (cumulative_bounds_range _ _ _ _ _ Hnn Hin) as [H0 _].
    pose proof (cumulative_bounds_below_total _ _ _ _ _ Hnn Hin) as Htot.
    destruct Hout; lra.
Qed.

Lemma dropped_iff_outside_audio_witness :
  slide_of (slide_boundaries [(1%Z, 3); (2%Z, 4)]) (Sub.mk 7 8 (lit "late"))
  = None
  ↔ Sub.start (Sub.mk 7 8 (lit "late")) < 0
    ∨ sumQ [(1%Z, 3); (2%Z, 4)].*2 <= Sub.start (Sub.mk 7 8 (lit "late")).
Proof.
  apply (dropped_iff_outside_audio [(1%Z, 3); (2%Z, 4)]).
  - unfold Dict.wf. simpl. apply (bool_decide_unpack _). vm_compute. exact I.
  - repeat constructor; vm_compute; discriminate.
Defined.

Lemma find_slide_only_match audio_durations keys c sub n b m bm :
  nonneg audio_durations →
  find_slide (cumulative_bounds audio_durations keys c) sub = Some (n, b) →
  (m, bm) ∈ cumulative_bounds audio_durations keys c →
  within bm sub = true →
  (m, bm) = (n, b).
Proof.
  intros Hnn Hfind Hin Hw. revert c Hfind Hin.
  induction keys as [|k rest IH]; intros c Hfind Hin; simpl in *; [done|].
  destruct (within (Bounds.mk c (c + duration_of audio_durations k)) sub)
    eqn:E.
  - simplify_eq.
    apply elem_of_cons in Hin as [|Hin]; [done|]. exfalso.
    apply (cumulative_bounds_range _ _ _ _ _ Hnn) in Hin as [Hc _].
    apply within_iff in E as [_ E]. apply within_iff in Hw as [Hw _].
    cbn [Bounds.end_] in E. lra.
  - apply elem_of_cons in Hin as [Heq|Hin]; [simplify_eq; congruence|].
    by apply (IH _ Hfind Hin).
Qed.

(** With no negative duration the boundaries do not overlap: the slide a
    subtitle is assigned to is the only slide whose interval contains the
    start of the subtitle. *)
Theorem assigned_slide_is_the_only_match
    (audio_durations : Dict.t Q) (sub : Sub.t)
    (n m : Z) (b bm : Bounds.t) :
  Dict.wf audio_durations →
  nonneg audio_durations →
  find_slide (slide_boundaries audio_durations) sub = Some (n, b) →
  Dict.get (slide_boundaries audio_durations) m = Some bm →
  Bounds.start bm <= Sub.start sub →
  Sub.start sub < Bounds.end_ bm →
  m = n ∧ bm = b.
Proof.
  intros Hwf Hnn Hfind Hget Hlo Hhi.
  rewrite (slide_boundaries_cumulative _ Hwf) in *.
  apply dict_get_elem_of in Hget.
  assert (Hw : within bm sub = true) by (by apply within_iff).
  pose proof (find_slide_only_match _ _ _ _ _ _ _ _ Hnn Hfind Hget Hw).
  by simplify_eq.
Qed.

Lemma assigned_slide_is_the_only_match_witness :
  2%Z = 2%Z ∧ Bounds.mk 3 (3 + 4) = Bounds.mk 3 (3 + 4).
Proof.
  refine (assigned_slide_is_the_only_match [(1%Z, 3); (2%Z, 4)]
            (Sub.mk 5 6 (lit "x")) 2 2 (Bounds.mk 3 (3 + 4))
            (Bounds.mk 3 (3 + 4)) _ _ _ _ _ _).
  - unfold Dict.wf. simpl. apply (bool_decide_unpack _). vm_compute. exact I.
  - repeat constructor; vm_compute; discriminate.
  - reflexivity.
  - reflexivity.
  - vm_compute. discriminate.
  - vm_compute. reflexivity.
Defined.

(** Every segment listed for slide [n] comes from a subtitle assigned to
    [n] and starts within the audio of that slide: at an offset of at
    least [0] and at most the duration of the slide. *)
Theorem relative_start_inside_slide
    (audio_durations : Dict.t Q) (all_subtitles : list Sub.t)
    (n : Z) (seg : Sub.t) :
  Dict.wf audio_durations →
  seg ∈ segments_of (rebin audio_durations all_subtitles) n →
  0 <= Sub.start seg
  ∧ Sub.start seg <= duration_of audio_durations n
  ∧ ∃ sub b, sub ∈ all_subtitles
      ∧ find_slide (slide_boundaries audio_durations) sub = Some (n, b)
      ∧ seg = relative b sub.
Proof.
  intros Hwf. rewrite segments_of_rebin.
  intros (sub & Hsub & Hseg)%list_elem_of_omap.
  unfold segment_for in Hseg.
  destruct (find_slide (slide_boundaries audio_durations) sub)
    as [[m b]|] eqn:Hfind; [|done].
  destruct (Z.eqb_spec m n) as [->|]; [|done]. simplify_eq.
  pose proof (find_slide_elem_of _ _ _ _ Hfind) as [Hin Hw].
  apply within_iff in Hw as [Hw1 Hw2].
  apply (dict_elem_of_get _ _ _ (slide_boundaries_wf _)) in Hin.
  rewrite (slide_boundaries_cumulative _ Hwf) in Hin.
  destruct (cumulative_bounds_get _ _ _ _ _ (sorted_ascending _ Hwf) Hin)
    as [_ Hend].
  rewrite Hend in Hw2. cbn [relative Sub.start].
  split_and!; [lra | lra | by eauto].
Qed.

Lemma relative_start_inside_slide_witness :
  0 <= Sub.start (Sub.mk 2 3 (lit "x"))
  ∧ Sub.start (Sub.mk 2 3 (lit "x")) <= duration_of [(1%Z, 3); (2%Z, 4)] 2
  ∧ ∃ sub b, sub ∈ [Sub.mk 5 6 (lit "x")]
      ∧ find_slide (slide_boundaries [(1%Z, 3); (2%Z, 4)]) sub = Some (2%Z, b)
      ∧ Sub.mk 2 3 (lit "x") = relative b sub.
Proof.
  apply (relative_start_inside_slide [(1%Z, 3); (2%Z, 4)]
           [Sub.mk 5 6 (lit "x")] 2 (Sub.mk 2 3 (lit "x"))).
  - unfold Dict.wf. simpl. apply (bool_decide_unpack _). vm_compute. exact I.
  - vm_compute. left.
Defined.

(** Re-binning is done subtitle by subtitle: the list of a slide for two
    streams read one after the other is the list for the first followed
    by the list for the second. *)
Theorem rebin_of_appended_streams
    (audio_durations : Dict.t Q) (first second : list Sub.t) (n : Z) :
  segments_of (rebin audio_durations (first ++ second)) n
  = segments_of (rebin audio_durations first) n
    ++ segments_of (rebin audio_durations second) n.
Proof. rewrite !segments_of_rebin. apply omap_app. Qed.

(** ** From the audio files to the boundaries *)

Lemma audio_durations_loop_wf (files : list (Z * Q)) (acc : Dict.t Q) :
  Dict.wf acc →
  Dict.wf (fold_left (λ durations '(slide_num, duration),
                        Dict.set durations slide_num duration) files acc).
Proof.
  revert acc. induction files as [|[k v] rest IH]; intros acc Hwf; [done|].
  simpl. apply IH. by apply dict_wf_set.
Qed.

Lemma audio_durations_loop_get (files : list (Z * Q)) (acc : Dict.t Q) n :
  Dict.get (fold_left (λ durations '(slide_num, duration),
                         Dict.set durations slide_num duration) files acc) n
  = match last (filter (λ f, f.1 = n) files).*2 with
    | Some v => Some v
    | None => Dict.get acc n
    end.
Proof.
  revert acc. induction files as [|[k v] rest IH]; intros acc; [done|].
  simpl. rewrite IH. rewrite filter_cons. simpl.
  destruct (decide (k = n)) as [->|Hne].
  - rewrite fmap_cons, last_cons. simpl.
    destruct (last (filter (λ f, f.1 = n) rest).*2); [done|].
    apply dict_get_set_eq.
  - destruct (last (filter (λ f, f.1 = n) rest).*2); [done|].
    by apply dict_get_set_ne.
Qed.

Lemma audio_durations_loop_fresh (files : list (Z * Q)) (acc : Dict.t Q) :
  NoDup (Dict.keys acc ++ files.*1) →
  fold_left (λ durations '(slide_num, duration),
               Dict.set durations slide_num duration) files acc
  = acc ++ files.
Proof.
  revert acc. induction files as [|[k v] rest IH]; intros acc Hnd; simpl.
  - by rewrite app_nil_r.
  - rewrite fmap_cons in Hnd. simpl in Hnd.
    rewrite dict_set_fresh.
    + rewrite IH; [by rewrite <- app_assoc|].
      unfold Dict.keys. rewrite fmap_app. simpl.
      by rewrite <- app_assoc.
    + apply NoDup_app in Hnd as (_ & Hdisj & _).
      intros Hin. apply (Hdisj k Hin). left.
Qed.

(** [get_audio_durations] returns a dictionary in which a slide number
    found in several file names keeps the duration of the last of these
    files; when the numbers are all different the entries are the files
    in the order they were found. *)
Theorem audio_durations_of_files (files : list (Z * Q)) :
  Dict.wf (get_audio_durations files)
  ∧ (∀ n, Dict.get (get_audio_durations files) n
          = last (filter (λ f, f.1 = n) files).*2)
  ∧ (NoDup files.*1 → get_audio_durations files = files).
Proof.
  unfold get_audio_durations. split_and!.
  - apply audio_durations_loop_wf. apply NoDup_nil_2.
  - intros n. rewrite audio_durations_loop_get.
    by destruct (last _).
  - intros Hnd. by rewrite audio_durations_loop_fresh.
Qed.

Lemma load_slides_content_numbers rewrite_passes data :
  SlideContent.slide_number <$> load_slides_content rewrite_passes data
  = (λ i, Z.of_nat i + 1)%Z <$> seq 0 (length data).
Proof.
  unfold load_slides_content.
  apply list_eq. intros i.
  rewrite !list_lookup_fmap, list_lookup_imap.
  destruct (data !! i) as [s|] eqn:E; simpl.
  - rewrite lookup_seq_lt by (by eapply lookup_lt_Some). done.
  - rewrite lookup_seq_ge by (by apply lookup_ge_None). done.
Qed.

Lemma numbers_ascending (n : nat) (from : nat) :
  StronglySorted Z.lt ((λ i, Z.of_nat i + 1)%Z <$> seq from n).
Proof.
  revert from. induction n as [|n IH]; intros from; simpl; [constructor|].
  constructor; [apply IH|].
  apply Forall_forall. intros x Hx.
  apply list_elem_of_fmap in Hx as (i & -> & Hi).
  apply elem_of_seq in Hi. lia.
Qed.

(** The loaded slides are numbered 1, 2, ... in the order of the content
    file, whatever the file says, and start with a duration and a start
    time of [0]. *)
Theorem loaded_slides_numbered_and_fresh
    (rewrite_passes : str → str) (data : list SlideData.t) :
  length (load_slides_content rewrite_passes data) = length data
  ∧ SlideContent.slide_number <$> load_slides_content rewrite_passes data
    = (λ i, Z.of_nat i + 1)%Z <$> seq 0 (length data)
  ∧ StronglySorted Z.lt
      (SlideContent.slide_number
       <$> load_slides_content rewrite_passes data)
  ∧ Forall (λ slide, SlideContent.duration slide = 0
                     ∧ SlideContent.start_time slide = 0)
      (load_slides_content rewrite_passes data).
Proof.
  split_and!.
  - unfold load_slides_content. apply length_imap.
  - apply load_slides_content_numbers.
  - rewrite load_slides_content_numbers. apply numbers_ascending.
  - apply Forall_forall. intros slide Hin.
    unfold load_slides_content in Hin.
    apply list_elem_of_lookup in Hin as [i Hi].
    rewrite list_lookup_imap in Hi.
    destruct (data !! i); by simplify_eq/=.
Qed.

Lemma measured_cons slide slides :
  measured (slide :: slides)
  = if narrated slide
    then (SlideContent.slide_number slide, SlideContent.duration slide)
         :: measured slides
    else measured slides.
Proof. unfold measured. simpl. by destruct (narrated slide). Qed.

Lemma slide_bounds_cons slide slides :
  slide_bounds (slide :: slides)
  = if narrated slide
    then (SlideContent.slide_number slide,
          Bounds.mk (SlideContent.start_time slide)
            (SlideContent.start_time slide + SlideContent.duration slide))
         :: slide_bounds slides
    else slide_bounds slides.
Proof. unfold slide_bounds. simpl. by destruct (narrated slide). Qed.

Lemma measured_keys slides :
  (measured slides).*1
  = SlideContent.slide_number <$> filter (λ s, narrated s = true) slides.
Proof.
  induction slides as [|s rest IH]; [done|].
  rewrite measured_cons, filter_cons.
  destruct (decide (narrated s = true)) as [Hn|Hn].
  - rewrite Hn, !fmap_cons. simpl. by rewrite IH.
  - apply not_true_is_false in Hn. by rewrite Hn.
Qed.

Lemma measured_elem slides slide :
  slide ∈ slides → narrated slide = true →
  (SlideContent.slide_number slide, SlideContent.duration slide)
  ∈ measured slides.
Proof.
  intros Hin Hn. unfold measured. apply list_elem_of_omap.
  exists slide. by rewrite Hn.
Qed.

Lemma audio_loop_bounds synthesize (durations : Dict.t Q) slides :
  ∀ cumulative slides' audio_files,
    audio_loop synthesize slides cumulative = Some (slides', audio_files) →
    (∀ slide, slide ∈ slides' → narrated slide = true →
       duration_of durations (SlideContent.slide_number slide)
       = SlideContent.duration slide) →
    cumulative_bounds durations (measured slides').*1 cumulative
    = slide_bounds slides'.
Proof.
  induction slides as [|s rest IH]; intros c slides' files Hloop Hdur.
  - by simplify_eq/=.
  - simpl in Hloop.
    destruct (truthy (strip (SlideContent.narration_text s))) eqn:Htext;
      simpl in Hloop.
    + destruct (synthesize s) as [d|] eqn:Hd; simpl in Hloop; [|done].
      destruct (audio_loop synthesize rest (c + d)) as [[rest' fs]|] eqn:Hrec;
        simpl in Hloop; [|done].
      injection Hloop as <- <-.
      set (s' := SlideContent.mk (SlideContent.slide_number s)
                   (SlideContent.image_path s)
                   (SlideContent.narration_text s) d c) in *.
      assert (Hn : narrated s' = true).
      { unfold narrated, s'. cbn [SlideContent.narration_text].
        by rewrite Htext. }
      rewrite measured_cons, slide_bounds_cons, Hn, fmap_cons.
      cbn [fst cumulative_bounds].
      rewrite (Hdur s') by (done || left).
      cbn [SlideContent.slide_number SlideContent.duration
           SlideContent.start_time s'].
      f_equal. apply (IH _ _ _ Hrec).
      intros slide Hin. apply Hdur. by right.
    + destruct (audio_loop synthesize rest c) as [[rest' fs]|] eqn:Hrec;
        simpl in Hloop; [|done].
      injection Hloop as <- <-.
      assert (Hn : narrated s = false) by (unfold narrated; by rewrite Htext).
      rewrite measured_cons, slide_bounds_cons, Hn.
      apply (IH _ _ _ Hrec). intros slide Hin. apply Hdur. by right.
Qed.

Lemma sorted_fixed (keys : list Z) :
  StronglySorted Z.lt keys → sorted keys = keys.
Proof.
  intros Hsorted.
  assert (Hnd : NoDup keys).
  { induction Hsorted as [|x l _ IH Hx]; constructor; [|done].
    intros Hin. rewrite Forall_forall in Hx. specialize (Hx _ Hin). lia. }
  apply (StronglySorted_unique_strong Z.lt).
  - intros. lia.
  - by apply sorted_ascending.
  - done.
  - apply sorted_permutation.
Qed.

Lemma ascending_filter (P : SlideContent.t → Prop)
    `{∀ s, Decision (P s)} (slides : list SlideContent.t) :
  StronglySorted Z.lt (SlideContent.slide_number <$> slides) →
  StronglySorted Z.lt (SlideContent.slide_number <$> filter P slides).
Proof.
  induction slides as [|s rest IH]; [done|].
  rewrite fmap_cons. intros [Hs Hrest]%StronglySorted_cons.
  rewrite filter_cons. destruct (decide (P s)); [|by apply IH].
  rewrite fmap_cons. apply StronglySorted_cons. split; [|by apply IH].
  apply Forall_forall. intros x Hx.
  apply list_elem_of_fmap in Hx as (s' & -> & Hs').
  apply list_elem_of_filter in Hs' as [_ Hs'].
  rewrite Forall_forall in Hs. apply Hs.
  apply list_elem_of_fmap. by exists s'.
Qed.

Lemma slide_boundaries_permutation (d d' : Dict.t Q) :
  Dict.wf d → d' ≡ₚ d → slide_boundaries d' = slide_boundaries d.
Proof.
  intros Hwf Hperm.
  assert (Hwf' : Dict.wf d').
  { unfold Dict.wf, Dict.keys in *. by rewrite Hperm. }
  rewrite (slide_boundaries_cumulative _ Hwf).
  rewrite (slide_boundaries_cumulative _ Hwf').
  assert (Hkeys : sorted (Dict.keys d') = sorted (Dict.keys d)).
  { apply (Sorted_unique Z.le).
    - apply Sorted_merge_sort. apply _.
    - apply Sorted_merge_sort. apply _.
    - rewrite !sorted_permutation. unfold Dict.keys. by rewrite Hperm. }
  rewrite Hkeys. apply cumulative_bounds_ext. intros k.
  unfold duration_of. by rewrite (dict_get_permutation _ _ _ Hwf Hperm).
Qed.

(** The two scripts agree on the timeline: for slides numbered in
    ascending order, the boundaries that [sync_subtitles.py] derives from
    the audio files of a completed run, in whatever order the files are
    found, are the intervals from [start_time] to
    [start_time + duration] that the generator stored in the narrated
    slides. *)
Theorem boundaries_match_sequenced_slides
    (synthesize : SlideContent.t → option Q)
    (slides slides' : list SlideContent.t) (audio_files : list Z)
    (files : list (Z * Q)) :
  StronglySorted Z.lt (SlideContent.slide_number <$> slides) →
  generate_audio_segments synthesize slides = Some (slides', audio_files) →
  files ≡ₚ measured slides' →
  slide_boundaries (get_audio_durations files) = slide_bounds slides'.
Proof.
  intros Hsorted Hgen Hperm.
  pose proof (audio_loop_frame _ _ _ _ _ Hgen) as (Hnum & _ & _ & _ & _).
  assert (Hkeys : StronglySorted Z.lt (measured slides').*1).
  { rewrite measured_keys. apply ascending_filter. by rewrite Hnum. }
  assert (Hwf : Dict.wf (measured slides')).
  { unfold Dict.wf, Dict.keys.
    clear -Hkeys. induction Hkeys as [|x l _ IH Hx]; constructor; [|done].
    intros Hin. rewrite Forall_forall in Hx. specialize (Hx _ Hin). lia. }
  assert (Hfiles : get_audio_durations files = files).
  { unfold get_audio_durations. rewrite audio_durations_loop_fresh; [done|].
    simpl. unfold Dict.wf, Dict.keys in Hwf. by rewrite Hperm. }
  rewrite Hfiles, (slide_boundaries_permutation _ _ Hwf Hperm).
  rewrite (slide_boundaries_cumulative _ Hwf).
  unfold Dict.keys. rewrite (sorted_fixed _ Hkeys).
  apply (audio_loop_bounds synthesize _ slides 0 slides' audio_files Hgen).
  intros slide Hin Hn. apply duration_of_elem; [done|].
  by apply measured_elem.
Qed.

Lemma boundaries_match_sequenced_slides_witness :
  slide_boundaries (get_audio_durations [(3%Z, 2); (1%Z, 2)])
  = slide_bounds deck_with_gap_sequenced.
Proof.
  apply (boundaries_match_sequenced_slides (λ _, Some 2)
           (load_slides_content (λ text, text) deck_with_gap)
           deck_with_gap_sequenced [1%Z; 3%Z] [(3%Z, 2); (1%Z, 2)]).
  - apply (bool_decide_unpack _). vm_compute. exact I.
  - reflexivity.
  - change (measured deck_with_gap_sequenced) with [(1%Z, 2); (3%Z, 2)].
    apply perm_swap.
Defined.


(** ** The player *)



(** ** Reading the SRT blocks *)

Lemma split_on_no_sep sep cur s line :
  sep ∉ cur → line ∈ split_on sep cur s → sep ∉ line.
Proof.
  revert cur. induction s as [|c rest IH]; intros cur Hcur; simpl.
  - intros ->%list_elem_of_singleton. by rewrite elem_of_reverse.
  - destruct (N.eqb_spec c sep) as [->|Hne].
    + intros [->|Hin]%elem_of_cons.
      * by rewrite elem_of_reverse.
      * apply (IH [] (not_elem_of_nil _) Hin).
    + apply IH. apply not_elem_of_cons. split; [congruence | done].
Qed.

Lemma join_space_no_line_break (lines : list str) :
  Forall (λ line, 10%N ∉ line) lines → 10%N ∉ join_space lines.
Proof.
  induction 1 as [|line rest Hline Hrest IH]; [apply not_elem_of_nil|].
  destruct rest as [|next rest']; [done|].
  change (join_space (line :: next :: rest'))
    with (line ++ 32%N :: join_space (next :: rest')).
  rewrite not_elem_of_app, not_elem_of_cons. split_and!; [done | done | done].
Qed.

(** A subtitle is read only from a block of at least three lines whose
    second line matches the timing pattern; its times are the two
    timestamps in seconds, and its text is the remaining lines joined by
    single spaces, so it contains no line break. *)
Theorem read_block_subtitle
    (timing_search : str → option Timing.t) (block : str) (sub : Sub.t) :
  read_block timing_search block = Some sub →
  (3 <= length (split_lines (strip block)))%nat
  ∧ (∃ m, timing_search (default [] (split_lines (strip block) !! 1%nat))
          = Some m
      ∧ Sub.start sub
        = srt_seconds (Timing.start_h m) (Timing.start_m m)
            (Timing.start_s m) (Timing.start_ms m)
      ∧ Sub.end_ sub
        = srt_seconds (Timing.end_h m) (Timing.end_m m)
            (Timing.end_s m) (Timing.end_ms m))
  ∧ Sub.text sub = join_space (drop 2 (split_lines (strip block)))
  ∧ 10%N ∉ Sub.text sub.
Proof.
  unfold read_block.
  destruct (negb (truthy (strip block))); [done|].
  destruct (Nat.ltb_spec (length (split_lines (strip block))) 3)
    as [|Hlen]; [done|].
  destruct (timing_search _) as [m|] eqn:Hm; [|done].
  intros [= <-]. cbn [Sub.start Sub.end_ Sub.text].
  split_and!; [done | by exists m | done |].
  apply join_space_no_line_break, Forall_forall. intros line Hin.
  apply list_elem_of_lookup in Hin as [i Hi]. rewrite lookup_drop in Hi.
  apply list_elem_of_lookup_2 in Hi.
  by apply (split_on_no_sep 10 [] (strip block) line (not_elem_of_nil _)).
Qed.

Lemma read_block_subtitle_witness :
  (3 <= length (split_lines (strip srt_block)))%nat
  ∧ 10%N ∉ lit "Hello world".
Proof.
  pose proof (read_block_subtitle
                (λ _, Some (Timing.mk 0 0 1 500 0 0 2 0)) srt_block
                (Sub.mk (srt_seconds 0 0 1 500) (srt_seconds 0 0 2 0)
                   (lit "Hello world")) eq_refl) as (H1 & _ & _ & H2).
  exact (conj H1 H2).
Defined.

Lemma srt_seconds_millis h m s ms :
  srt_seconds h m s ms * 1000
  == inject_Z ((h * 3600 + m * 60 + s) * 1000 + ms).
Proof.
  unfold srt_seconds. generalize (h * 3600 + m * 60 + s)%Z. intros x.
  rewrite inject_Z_plus, inject_Z_mult.
  change (inject_Z 1000) with 1000. field.
Qed.

(** Two timestamps whose fields are in their usual ranges denote the same
    number of seconds only if they are the same timestamp, and no such
    timestamp is negative. *)
Theorem srt_seconds_injective (h m s ms h' m' s' ms' : Z) :
  normal_fields h m s ms →
  normal_fields h' m' s' ms' →
  0 <= srt_seconds h m s ms
  ∧ (srt_seconds h m s ms == srt_seconds h' m' s' ms' →
     h = h' ∧ m = m' ∧ s = s' ∧ ms = ms').
Proof.
  unfold normal_fields. intros Hn Hn'.
  pose proof (srt_seconds_millis h m s ms) as H1.
  pose proof (srt_seconds_millis h' m' s' ms') as H2.
  split.
  - assert (H0 : 0 <= inject_Z ((h * 3600 + m * 60 + s) * 1000 + ms)).
    { change 0 with (inject_Z 0). rewrite <- Zle_Qle. lia. }
    lra.
  - intros Heq.
    assert (Hz : inject_Z ((h * 3600 + m * 60 + s) * 1000 + ms)
                 == inject_Z ((h' * 3600 + m' * 60 + s') * 1000 + ms')).
    { rewrite <- H1, <- H2, Heq. reflexivity. }
    rewrite inject_Z_injective in Hz.
    assert (Hy : ((h * 60 + m) * 60 + s = (h' * 60 + m') * 60 + s'
                  ∧ ms = ms')%Z).
    { replace (h * 3600 + m * 60 + s)%Z
        with ((h * 60 + m) * 60 + s)%Z in Hz by ring.
      replace (h' * 3600 + m' * 60 + s')%Z
        with ((h' * 60 + m') * 60 + s')%Z in Hz by ring.
      revert Hz. generalize ((h * 60 + m) * 60 + s)%Z.
      generalize ((h' * 60 + m') * 60 + s')%Z. intros; lia. }
    destruct Hy as [Hy ->].
    assert (Hx : (h * 60 + m = h' * 60 + m' ∧ s = s')%Z).
    { revert Hy. generalize (h * 60 + m)%Z. generalize (h' * 60 + m')%Z.
      intros; lia. }
    destruct Hx as [Hx ->]. lia.
Qed.

Lemma srt_seconds_injective_witness :
  0 <= srt_seconds 0 1 2 500
  ∧ (srt_seconds 0 1 2 500 == srt_seconds 0 1 2 500 →
     0%Z = 0%Z ∧ 1%Z = 1%Z ∧ 2%Z = 2%Z ∧ 500%Z = 500%Z).
Proof.
  apply (srt_seconds_injective 0 1 2 500 0 1 2 500);
    unfold normal_fields; lia.
Defined.

(** ** The narration of an extracted slide *)

Lemma visible_truthy s : visible s ≠ [] → truthy (strip s) = true.
Proof.
  intros Hv. rewrite <- visible_strip in Hv.
  by destruct (strip s).
Qed.

Lemma visible_prefix prefix s : visible prefix ≠ [] → visible (prefix ++ s) ≠ [].
Proof.
  intros Hp. rewrite visible_app. intros [H _]%app_eq_nil. done.
Qed.

(** The narration written for an extracted slide is never blank and
    always ends in one of [.], [!], [?], whatever the text of the slide
    and its number. *)
Theorem created_narration_is_a_sentence (slide_text : str) (n : Z) :
  truthy (strip (_create_narration slide_text n)) = true
  ∧ ends_sentence (_create_narration slide_text n) = true.
Proof.
  unfold _create_narration.
  destruct (truthy (strip slide_text)) eqn:Htext; cbn [negb].
  - set (narration := if negb (ends_sentence (strip slide_text))
                      then strip slide_text ++ lit "."
                      else strip slide_text).
    assert (Hends : ends_sentence narration = true).
    { unfold narration.
      destruct (ends_sentence (strip slide_text)) eqn:E; cbn [negb]; [done|].
      unfold ends_sentence. change (lit ".") with [46%N].
      by rewrite last_snoc. }
    assert (Hlast : ∀ prefix, ends_sentence (prefix ++ narration) = true).
    { intros prefix. unfold ends_sentence in *.
      destruct narration as [|c rest]; [done|].
      by rewrite last_app_cons. }
    destruct (Z.eqb n 1).
    + split; [|apply Hlast]. apply visible_truthy, visible_prefix.
      vm_compute. discriminate.
    + split.
      * apply visible_truthy, visible_prefix. vm_compute. discriminate.
      * rewrite !app_assoc. apply Hlast.
  - split.
    + apply visible_truthy, visible_prefix. vm_compute. discriminate.
    + unfold ends_sentence. rewrite app_assoc.
      change (lit ".") with [46%N]. by rewrite last_snoc.
Qed.


(** ** The text cleaned by [lecture_generator.py] *)

Lemma separated_weaken q s : separated q true s → separated q false s.
Proof. destruct s as [|c rest]; simpl; [done|]. by destruct (q c); [intros [? _]|]. Qed.

Lemma squeeze_separated p r in_run s :
  separated p in_run (squeeze p r in_run s).
Proof.
  revert in_run. induction s as [|c rest IH]; intros in_run; simpl; [done|].
  destruct (p c) eqn:Hc.
  - destruct in_run; [apply IH|]. simpl. destruct (p r).
    + split; [done | apply IH].
    + apply separated_weaken, IH.
  - simpl. rewrite Hc. apply IH.
Qed.

Lemma squeeze_keeps_separated q p r s :
  (∀ c, p c = true → q c = false) → q r = false →
  ∀ in_run after_q,
    (in_run = true → after_q = false) →
    separated q after_q s →
    separated q after_q (squeeze p r in_run s).
Proof.
  intros Hpq Hr. induction s as [|c rest IH]; intros in_run b Hrun; simpl;
    [done|].
  destruct (p c) eqn:Hc.
  - rewrite (Hpq c Hc). intros Hsep. destruct in_run.
    + rewrite (Hrun eq_refl). by apply IH.
    + simpl. rewrite Hr. by apply IH.
  - simpl. destruct (q c).
    + intros [-> Hsep]. split; [done|]. by apply IH.
    + intros Hsep. by apply IH.
Qed.

Lemma squeeze_Forall (P : N → Prop) p r in_run s :
  P r → Forall P s → Forall P (squeeze p r in_run s).
Proof.
  intros Hr Hs. revert in_run.
  induction Hs as [|c rest Hc Hrest IH]; intros in_run; simpl; [done|].
  destruct (p c); [destruct in_run|]; try constructor; auto.
Qed.

Lemma sub_spaces_plain s :
  Forall (λ c, isspace c = true → c = 32%N) (sub_spaces s).
Proof.
  unfold sub_spaces. generalize false.
  induction s as [|c rest IH]; intros in_run; simpl; [done|].
  destruct (isspace c) eqn:Hc.
  - destruct in_run; [apply IH|]. constructor; [done | apply IH].
  - constructor; [congruence | apply IH].
Qed.

Lemma separated_app_r q after_q l m :
  separated q after_q (l ++ m) → separated q false m.
Proof.
  revert after_q. induction l as [|c rest IH]; intros b; simpl.
  - destruct b; [apply separated_weaken | done].
  - destruct (q c); [intros [_ H]|intros H]; by apply IH in H.
Qed.

Lemma separated_app_l q after_q m r :
  separated q after_q (m ++ r) → separated q after_q m.
Proof.
  revert after_q. induction m as [|c rest IH]; intros b; simpl; [done|].
  destruct (q c); [intros [-> H]; split; [done|]|intros H]; by apply IH.
Qed.

Lemma rstrip_prefix s :
  ∃ r, s = rstrip s ++ r ∧ Forall (λ c, isspace c = true) r.
Proof.
  unfold rstrip. destruct (lstrip_suffix (reverse s)) as (l & Hl & Hsp).
  exists (reverse l). split.
  - rewrite <- reverse_app, <- Hl. by rewrite reverse_involutive.
  - apply Forall_forall. intros c Hc. rewrite elem_of_reverse in Hc.
    rewrite Forall_forall in Hsp. by apply Hsp.
Qed.

Lemma strip_infix s : ∃ l r, s = l ++ strip s ++ r.
Proof.
  unfold strip. destruct (lstrip_suffix s) as (l & Hl & _).
  destruct (rstrip_prefix (lstrip s)) as (r & Hr & _).
  exists l, r. by rewrite <- Hr.
Qed.

Lemma strip_separated q s : separated q false s → separated q false (strip s).
Proof.
  destruct (strip_infix s) as (l & r & Hs). intros Hsep.
  rewrite Hs in Hsep. apply separated_app_r in Hsep.
  by apply separated_app_l in Hsep.
Qed.

Lemma strip_Forall (P : N → Prop) s : Forall P s → Forall P (strip s).
Proof.
  destruct (strip_infix s) as (l & r & Hs). intros Hall.
  rewrite Hs in Hall. apply Forall_app in Hall as [_ Hall].
  by apply Forall_app in Hall as [Hall _].
Qed.

Lemma separated_snoc q after_q s x :
  separated q after_q s →
  match last s with
  | Some c => q c = false ∨ q x = false
  | None => after_q = false ∨ q x = false
  end →
  separated q after_q (s ++ [x]).
Proof.
  revert after_q. induction s as [|c rest IH]; intros b Hsep Hlast.
  - simpl in *. destruct (q x) eqn:Hx; [|done].
    split; [|done]. by destruct Hlast.
  - assert (Hrest : match last rest with
                    | Some c' => q c' = false ∨ q x = false
                    | None => q c = false ∨ q x = false
                    end).
    { destruct rest as [|c' rest']; [done|].
      rewrite last_cons_cons in Hlast.
      destruct (last (c' :: rest')) eqn:E; [done|].
      by apply last_None in E. }
    cbn [app separated] in *.
    destruct (q c) eqn:Hc.
    + destruct Hsep as [-> Hsep]. split; [done|]. apply IH; [done|].
      destruct (last rest); [done|]. destruct Hrest; [done | by right].
    + apply IH; [done|]. destruct (last rest); [done|]. by left.
Qed.

(** The text [lecture_generator.py] hands to the synthesis is tidy:
    its only white space is single spaces between other characters, and
    it has no two periods and no two commas in a row. *)
Theorem generator_cleaned_text_is_tidy
    (passes_before_cleanup : str → str) (text : str) :
  separated isspace false
    (clean_for_tts_generator passes_before_cleanup text)
  ∧ Forall (λ c, isspace c = true → c = 32%N)
      (clean_for_tts_generator passes_before_cleanup text)
  ∧ trimmed (clean_for_tts_generator passes_before_cleanup text)
  ∧ separated (N.eqb 46) false
      (clean_for_tts_generator passes_before_cleanup text)
  ∧ separated (N.eqb 44) false
      (clean_for_tts_generator passes_before_cleanup text).
Proof.
  unfold clean_for_tts_generator, clean_for_tts, last_char.
  destruct (truthy text); cbn [negb]; [|by repeat split].
  set (raw := passes_before_cleanup text).
  set (t := strip (sub_commas (sub_periods (sub_spaces raw)))).
  assert (Hspace : separated isspace false t).
  { apply strip_separated. unfold sub_commas, sub_periods.
    apply squeeze_keeps_separated;
      [by intros c <-%N.eqb_eq | done | done |].
    apply squeeze_keeps_separated;
      [by intros c <-%N.eqb_eq | done | done |].
    apply squeeze_separated. }
  assert (Hplain : Forall (λ c, isspace c = true → c = 32%N) t).
  { apply strip_Forall. unfold sub_commas, sub_periods.
    apply squeeze_Forall; [done|]. apply squeeze_Forall; [done|].
    apply sub_spaces_plain. }
  assert (Hperiod : separated (N.eqb 46) false t).
  { apply strip_separated. unfold sub_commas, sub_periods.
    apply squeeze_keeps_separated;
      [by intros c <-%N.eqb_eq | done | done |].
    apply squeeze_separated. }
  assert (Hcomma : separated (N.eqb 44) false t).
  { apply strip_separated. unfold sub_commas. apply squeeze_separated. }
  pose proof (strip_trimmed (sub_commas (sub_periods (sub_spaces raw))))
    as Htrim.
  fold t in Htrim.
  destruct (last t) as [c0|] eqn:Hlast; [|done].
  destruct (is_terminal c0) eqn:Hterm; cbn [negb]; [done|].
  change (lit ".") with [46%N].
  assert (Hc0 : N.eqb 46 c0 = false).
  { unfold is_terminal in Hterm. apply orb_false_iff in Hterm as [Hterm _].
    apply orb_false_iff in Hterm as [Hterm _]. by rewrite N.eqb_sym. }
  split_and!.
  - apply separated_snoc; [done|]. rewrite Hlast. by right.
  - apply Forall_app. split; [done|]. by constructor.
  - destruct Htrim as [Hhead _]. split; intros c Hc.
    + apply Hhead. by destruct t.
    + rewrite last_snoc in Hc. by simplify_eq.
  - apply separated_snoc; [done|]. rewrite Hlast. by left.
  - apply separated_snoc; [done|]. rewrite Hlast. by right.
Qed.
